(** * validador_csv: formula translation, dependency levels and impact analysis

    A shallow embedding of the symbolic core of the validator
    (formula_extractor.py, formula_auto_discovery.py, cross_sheet_analyzer.py,
    impact_analyzer.py, report_generator.py, validate.py) and the properties
    its specification states about it.

    Conventions of the embedding:
    - a Python [str] is a [list ascii]; a character is a code point below 256,
      and the character classes of [re] ([\d], [\w], [\s], [\b]) are the
      Unicode-aware ones of Python 3 restricted to that range;
    - a [dict] is a [gmap] where only lookups matter and an association list
      where the iteration order of the program is visible;
    - a [set] iterated by the program is a duplicate-free list, the list order
      standing for the iteration order;
    - a compiled pattern is a list of atoms run by a backtracking matcher. *)

From Stdlib Require Import Ascii String.
From stdpp Require Import base option list gmap strings pretty.

Open Scope list_scope.

Abbreviation str := (list ascii).

(** String literals are read as Python strings. *)
Coercion list_ascii_of_string : string >-> list.

(** ** Character classes of Python's [re] on code points below 256 *)

Module Chars.

Definition code (c : ascii) : nat := nat_of_ascii c.

Definition between (lo hi : nat) (c : ascii) : bool :=
  (lo <=? code c) && (code c <=? hi).

Definition lit (a : ascii) (c : ascii) : bool := bool_decide (a = c).
Definition not_lit (a : ascii) (c : ascii) : bool := negb (lit a c).

(** [[A-Z]] *)
Definition upper : ascii -> bool := between 65 90.
(** [[a-z]] *)
Definition lower : ascii -> bool := between 97 122.
(** [\d]: the decimal digits; below 256 these are [0-9] only. *)
Definition digit : ascii -> bool := between 48 57.

(** Letters and numeric characters of Latin-1 outside ASCII
    ([str.isalnum] holds of them): the ordinal indicators, the superscript
    digits, the micro sign, the vulgar fractions and the accented letters. *)
Definition latin1_alnum (c : ascii) : bool :=
  not_lit "215" c && not_lit "247" c && between 192 255 c
  || bool_decide (code c ∈ [170; 178; 179; 181; 185; 186; 188; 189; 190]).

(** [\w] *)
Definition word (c : ascii) : bool :=
  upper c || lower c || digit c || lit "_" c || latin1_alnum c.

(** [\s] *)
Definition space (c : ascii) : bool :=
  between 9 13 c || between 28 32 c || lit "133" c || lit "160" c.

(** [[A-Za-z_]] *)
Definition alpha_ (c : ascii) : bool := upper c || lower c || lit "_" c.
(** [[\w\s]] *)
Definition word_space (c : ascii) : bool := word c || space c.
(** [[^,]] and [[^,\)]] *)
Definition not_comma : ascii -> bool := not_lit ",".
Definition not_comma_paren (c : ascii) : bool := not_lit "," c && not_lit ")" c.

(** [str.isalpha] on one character. *)
Definition isalpha (c : ascii) : bool :=
  upper c || lower c
  || not_lit "215" c && not_lit "247" c && between 192 255 c
  || bool_decide (code c ∈ [170; 181; 186]).

End Chars.

(** ** A backtracking matcher for the patterns of the program

    Every pattern compiled by the program is a sequence of single-character
    classes under a quantifier, zero-width assertions and literals; a
    capturing group always wraps whole atoms.  [rmatch] tries to match a
    pattern at the head of [s], [prev] being the character before it (for
    [\b] and look-behind).  It returns the text each atom consumed (the
    pieces) and the rest of the string.  Greedy quantifiers try the longest
    repetition first and give characters back, lazy ones the shortest first,
    as [re] does. *)

Module Re.

Inductive atom :=
| Cls (p : ascii -> bool)        (** [c], [[...]] *)
| Opt (p : ascii -> bool)        (** [[...]?] *)
| Star (p : ascii -> bool)       (** [[...]*] *)
| Plus (p : ascii -> bool)       (** [[...]+] *)
| LazyStar (p : ascii -> bool)   (** [[...]*?] *)
| WordB                          (** [\b] *)
| NotBehind (p : ascii -> bool)  (** [(?<![...])] *)
| NotAhead (p : ascii -> bool).  (** [(?![...])] *)

Abbreviation res := (option (list str * str)).
Abbreviation cont := (option ascii -> str -> res).

Definition new_piece (r : res) : res :=
  match r with
  | Some (ps, rest) => Some ([] :: ps, rest)
  | None => None
  end.

Definition cons_piece (c : ascii) (r : res) : res :=
  match r with
  | Some (p :: ps, rest) => Some ((c :: p) :: ps, rest)
  | _ => None
  end.

Definition or_else (r : res) (alt : res) : res :=
  match r with
  | Some x => Some x
  | None => alt
  end.

(** Greedy repetition of a class, then the continuation [k]. *)
Fixpoint star_match (p : ascii -> bool) (k : cont) (prev : option ascii) (s : str) : res :=
  match s with
  | c :: s' =>
      if p c then or_else (cons_piece c (star_match p k (Some c) s')) (new_piece (k prev s))
      else new_piece (k prev s)
  | [] => new_piece (k prev s)
  end.

(** Lazy repetition: the continuation first, one more character otherwise. *)
Fixpoint lazy_match (p : ascii -> bool) (k : cont) (prev : option ascii) (s : str) : res :=
  or_else (new_piece (k prev s))
    match s with
    | c :: s' => if p c then cons_piece c (lazy_match p k (Some c) s') else None
    | [] => None
    end.

Definition word_at (o : option ascii) : bool :=
  match o with
  | Some c => Chars.word c
  | None => false
  end.

Definition holds_at (p : ascii -> bool) (o : option ascii) : bool :=
  match o with
  | Some c => p c
  | None => false
  end.

Fixpoint rmatch (pat : list atom) : cont :=
  match pat with
  | [] => fun _ s => Some ([], s)
  | a :: pat' =>
      let k := rmatch pat' in
      match a with
      | Cls p => fun _ s =>
          match s with
          | c :: s' => if p c then cons_piece c (new_piece (k (Some c) s')) else None
          | [] => None
          end
      | Opt p => fun prev s =>
          match s with
          | c :: s' =>
              if p c then or_else (cons_piece c (new_piece (k (Some c) s'))) (new_piece (k prev s))
              else new_piece (k prev s)
          | [] => new_piece (k prev s)
          end
      | Star p => star_match p k
      | Plus p => fun _ s =>
          match s with
          | c :: s' => if p c then cons_piece c (star_match p k (Some c) s') else None
          | [] => None
          end
      | LazyStar p => lazy_match p k
      | WordB => fun prev s =>
          if xorb (word_at prev) (word_at (head s)) then new_piece (k prev s) else None
      | NotBehind p => fun prev s =>
          if holds_at p prev then None else new_piece (k prev s)
      | NotAhead p => fun prev s =>
          if holds_at p (head s) then None else new_piece (k prev s)
      end
  end.

(** A match object: its span and the pieces of its text. *)
Record rematch := Rematch { m_start : nat; m_end : nat; m_pieces : list str }.

(** [match.group(0)] *)
Definition text (m : rematch) : str := concat (m_pieces m).

(** The text of the atoms [i .. i+n-1] of the pattern: a capturing group
    that wraps these atoms. *)
Definition pieces_at (i n : nat) (ps : list str) : str := concat (take n (drop i ps)).
Definition group_at (i n : nat) (m : rematch) : str := pieces_at i n (m_pieces m).

(** [pattern.finditer(s)]: the matches from left to right, each search
    starting where the previous match ended.  [skip] counts the characters
    of the current match still to step over.  Every pattern of the program
    consumes at least one character, so the empty matches [re] would also
    report do not arise; an empty match is stepped over. *)
Fixpoint finditer_scan (pat : list atom) (pos skip : nat) (prev : option ascii) (s : str)
    : list rematch :=
  match s with
  | [] => []
  | c :: s' =>
      match skip with
      | S n => finditer_scan pat (S pos) n (Some c) s'
      | O =>
          match rmatch pat prev s with
          | Some (ps, _) =>
              match length (concat ps) with
              | S n => Rematch pos (pos + S n) ps :: finditer_scan pat (S pos) n (Some c) s'
              | O => finditer_scan pat (S pos) 0 (Some c) s'
              end
          | None => finditer_scan pat (S pos) 0 (Some c) s'
          end
      end
  end.

Definition finditer (pat : list atom) (s : str) : list rematch :=
  finditer_scan pat 0 0 None s.

(** [pattern.sub(repl, s)], [repl] building the replacement from the pieces
    of a match; text outside the matches is copied. *)
Fixpoint sub_scan (pat : list atom) (repl : list str -> str) (skip : nat)
    (prev : option ascii) (s : str) : str :=
  match s with
  | [] => []
  | c :: s' =>
      match skip with
      | S n => sub_scan pat repl n (Some c) s'
      | O =>
          match rmatch pat prev s with
          | Some (ps, _) =>
              match length (concat ps) with
              | S n => repl ps ++ sub_scan pat repl n (Some c) s'
              | O => c :: sub_scan pat repl 0 (Some c) s'
              end
          | None => c :: sub_scan pat repl 0 (Some c) s'
          end
      end
  end.

Definition sub (pat : list atom) (repl : list str -> str) (s : str) : str :=
  sub_scan pat repl 0 None s.

(** A compiled pattern with its capturing groups, each given by the first
    atom it wraps and the number of atoms. *)
Record pattern := Pattern { atoms : list atom; groups : list (nat * nat) }.

(** An element of [pattern.findall(s)]: a tuple of groups, or a string. *)
Inductive found :=
| FTuple (gs : list str)
| FStr (s : str).

(** [pattern.findall(s)]: the whole match without groups, the group with one
    group, the tuple of the groups with more. *)
Definition findall (p : pattern) (s : str) : list found :=
  map (fun m =>
         match groups p with
         | [] => FStr (text m)
         | [g] => FStr (group_at g.1 g.2 m)
         | gs => FTuple (map (fun g => group_at g.1 g.2 m) gs)
         end) (finditer (atoms p) s).

(** [s.split(sep)] for a separator of one character. *)
Fixpoint split (sep : ascii) (s : str) : list str :=
  match s with
  | [] => [[]]
  | c :: s' =>
      if decide (c = sep) then [] :: split sep s'
      else match split sep s' with
           | part :: parts => (c :: part) :: parts
           | [] => [[c]]
           end
  end.

(** [s.strip(chars)], the characters to strip given as a class. *)
Fixpoint lstrip (p : ascii -> bool) (s : str) : str :=
  match s with
  | c :: s' => if p c then lstrip p s' else s
  | [] => []
  end.

Definition strip (p : ascii -> bool) (s : str) : str :=
  reverse (lstrip p (reverse (lstrip p s))).

(** [x in s] for strings. *)
Fixpoint starts_with (x s : str) : bool :=
  match x, s with
  | [], _ => true
  | a :: x', b :: s' => bool_decide (a = b) && starts_with x' s'
  | _ :: _, [] => false
  end.

Fixpoint contains (s x : str) : bool :=
  starts_with x s ||
  match s with
  | [] => false
  | _ :: s' => contains s' x
  end.

End Re.

Import Re.

(** ** formula_auto_discovery.py: FormulaAutoDiscovery._generalize_formula *)

(** [re.compile(r'([A-Z]+)(\d+)')]; group 1 is atom 0, group 2 is atom 1. *)
Definition generalize_pattern : list atom := [Plus Chars.upper; Plus Chars.digit].

(** The template [r'\1{row}']. *)
Definition generalize_repl (ps : list str) : str := pieces_at 0 1 ps ++ "{row}".

Definition _generalize_formula (formula : str) : str :=
  sub generalize_pattern generalize_repl formula.

(** ** formula_extractor.py: FormulaExtractor *)

(** [self.cell_ref_pattern = re.compile(r'\b([A-Z]+)(\d+)\b')];
    group 1 is atom 1, group 2 is atom 2. *)
Definition cell_ref_pattern : list atom :=
  [WordB; Plus Chars.upper; Plus Chars.digit; WordB].

(** [translated[:start] + new_name + translated[end:]] *)
Definition replace_span (translated : str) (start end_ : nat) (new_name : str) : str :=
  take start translated ++ new_name ++ drop end_ translated.

(** One turn of the loop of [_translate_formula]. *)
Definition translate_step (translation_map : gmap str str) (translated : str) (m : rematch) : str :=
  let col_letter := group_at 1 1 m in
  match translation_map !! col_letter with
  | Some new_name => replace_span translated (m_start m) (m_end m) new_name
  | None => translated
  end.

Definition _translate_formula (formula : str) (translation_map : gmap str str) : str :=
  let matches := finditer cell_ref_pattern formula in
  foldl (translate_step translation_map) formula (reverse matches).

(** [sheet_ref_pattern = re.compile(r'(\w+)!([A-Z]+)(\d+)')];
    groups 1, 2, 3 are atoms 0, 2, 3. *)
Definition sheet_ref_pattern : list atom :=
  [Plus Chars.word; Cls (Chars.lit "!"); Plus Chars.upper; Plus Chars.digit].

(** First loop of [_translate_formula_multi_sheet]: the matches are those of
    the original formula, the slices are taken from [translated]. *)
Definition sheet_step (translation_map : gmap str str) (translated : str) (m : rematch) : str :=
  let sheet_name := group_at 0 1 m in
  let col_letter := group_at 2 1 m in
  let full_ref := sheet_name ++ "!" ++ col_letter in
  match translation_map !! full_ref with
  | Some new_name => replace_span translated (m_start m) (m_end m) new_name
  | None => translated
  end.

(** Second loop: local references, skipped when the character before the
    match is [!]. *)
Definition local_step (translation_map : gmap str str) (translated : str) (m : rematch) : str :=
  let col_letter := group_at 1 1 m in
  let pos := m_start m in
  if bool_decide (0 < pos) && bool_decide (translated !! (pos - 1) = Some "!"%char)
  then translated
  else
    match translation_map !! col_letter with
    | Some new_name => replace_span translated (m_start m) (m_end m) new_name
    | None => translated
    end.

Definition _translate_formula_multi_sheet (formula : str) (translation_map : gmap str str) : str :=
  let translated :=
    foldl (sheet_step translation_map) formula (reverse (finditer sheet_ref_pattern formula)) in
  let local_refs := finditer cell_ref_pattern translated in
  foldl (local_step translation_map) translated (reverse local_refs).

(** ** What a match is made of

    [piece_ok a x]: the text [x] is one the atom [a] accepts. *)

Module ReSpec.

Definition all (p : ascii -> bool) (x : str) : Prop := Forall (fun c => p c = true) x.

Definition piece_ok (a : atom) (x : str) : Prop :=
  match a with
  | Cls p => exists c, x = [c] /\ p c = true
  | Opt p => length x <= 1 /\ all p x
  | Star p | LazyStar p => all p x
  | Plus p => x <> [] /\ all p x
  | WordB | NotBehind _ | NotAhead _ => x = []
  end.

Definition sound (k : cont) (Q : list str -> Prop) : Prop :=
  forall prev s ps rest, k prev s = Some (ps, rest) -> s = concat ps ++ rest /\ Q ps.

End ReSpec.

(** A list of string literals. *)
Definition strs (l : list string) : list str := map list_ascii_of_string l.

(** A dict literal with string keys and values. *)
Definition py_dict (items : list (string * string)) : gmap str str :=
  foldl (fun d kv => <[list_ascii_of_string kv.1 := list_ascii_of_string kv.2]> d) ∅ items.

(** ** formula_auto_discovery.py: FormulaAutoDiscovery._analyze_formula

    The branch of the loop over the matches of [mixed_ref] taken when the
    column has a header: the translation map gets the column letter and its
    three spellings with [$]. *)
Definition register_mixed_ref (header_traducao : gmap str str) (col header : str)
    : gmap str str :=
  let header_traducao := <[col := header]> header_traducao in
  let header_traducao := <["$" ++ col := header]> header_traducao in
  let header_traducao := <[col ++ "$" := header]> header_traducao in
  <["$" ++ col ++ "$" := header]> header_traducao.

(** ** Reading a translation from left to right *)

Module TranslateSpec.

(** [s[a:b]] *)
Definition slice (s : str) (a b : nat) : str := take (b - a) (drop a s).

(** The matches lie in [formula] from left to right, none before offset
    [lo], none empty, none overlapping the next, and each carries the text
    of its span. *)
Fixpoint spans_ok (lo : nat) (formula : str) (ms : list rematch) : Prop :=
  match ms with
  | [] => True
  | m :: ms' =>
      lo <= m_start m /\ m_start m < m_end m /\ m_end m <= length formula /\
      text m = slice formula (m_start m) (m_end m) /\
      spans_ok (m_end m) formula ms'
  end.

(** What stands in the output for a cell-reference token: the name its
    column letter is mapped to, the row number dropped, or the raw token
    when the letter has no mapping. *)
Definition token_image (translation_map : gmap str str) (formula : str) (m : rematch) : str :=
  match translation_map !! group_at 1 1 m with
  | Some new_name => new_name
  | None => slice formula (m_start m) (m_end m)
  end.

(** The formula with every token replaced by its image and the text between
    the tokens, from offset [pos] on, copied. *)
Fixpoint splice (translation_map : gmap str str) (formula : str) (pos : nat)
    (ms : list rematch) : str :=
  match ms with
  | [] => drop pos formula
  | m :: ms' =>
      slice formula pos (m_start m) ++ token_image translation_map formula m
        ++ splice translation_map formula (m_end m) ms'
  end.


End TranslateSpec.

(** ** Reading a generalization as a scan

    [row_machine] copies a formula and replaces every run of digits that
    directly follows an upper-case letter, the row number of a reference, by
    the placeholder. *)

Module GeneralizeSpec.

(** The longest prefix in a class, and what follows it. *)
Fixpoint run (p : ascii -> bool) (s : str) : str :=
  match s with
  | c :: s' => if p c then c :: run p s' else []
  | [] => []
  end.

Fixpoint after (p : ascii -> bool) (s : str) : str :=
  match s with
  | c :: s' => if p c then after p s' else s
  | [] => []
  end.

(** The character before the text that follows [x]. *)
Definition last_of (prev : option ascii) (x : str) : option ascii :=
  match last x with
  | Some c => Some c
  | None => prev
  end.

Inductive scan_state :=
| Outside      (** not after a column letter *)
| AfterLetter  (** the previous character is an upper-case letter *)
| InRow.       (** inside a row number already replaced *)

Definition placeholder : str := "{row}".

Fixpoint row_machine (st : scan_state) (s : str) : str :=
  match s with
  | [] => []
  | c :: s' =>
      if Chars.digit c then
        match st with
        | AfterLetter => placeholder ++ row_machine InRow s'
        | InRow => row_machine InRow s'
        | Outside => c :: row_machine Outside s'
        end
      else c :: row_machine (if Chars.upper c then AfterLetter else Outside) s'
  end.

(** The state in which the output of a scan left in [st] is read again. *)
Definition reread (st : scan_state) : scan_state :=
  match st with
  | InRow => Outside
  | _ => st
  end.

End GeneralizeSpec.

(** ** Dicts in insertion order

    A dict whose iteration order the program relies on is an association
    list with distinct keys: assigning to a key it has keeps the key in
    place, assigning to a new key appends it. *)

Module Dict.

(** [d.get(key)] *)
Fixpoint get {V} (d : list (str * V)) (key : str) : option V :=
  match d with
  | [] => None
  | (k, v) :: d' => if decide (k = key) then Some v else get d' key
  end.

(** [d[key] = v] *)
Fixpoint set {V} (d : list (str * V)) (key : str) (v : V) : list (str * V) :=
  match d with
  | [] => [(key, v)]
  | (k, v') :: d' => if decide (k = key) then (key, v) :: d' else (k, v') :: set d' key v
  end.

(** The assignments [d[k] = v] for the pairs of [items], in order. *)
Definition assign_all {V} (d : list (str * V)) (items : list (str * V)) : list (str * V) :=
  foldl (fun d kv => set d kv.1 kv.2) d items.

(** [d.update(other)] *)
Definition update {V} (d other : list (str * V)) : list (str * V) := assign_all d other.

(** The value of the last assignment to [key] in a sequence of
    assignments. *)
Definition last_assigned {V} (items : list (str * V)) (key : str) : option V :=
  snd <$> last (filter (fun kv => kv.1 = key) items).

End Dict.

(** ** cross_sheet_analyzer.py: CrossSheetAnalyzer

    [dependencies : Dict[str, Set[str]]] is an association list in insertion
    order; the list under a key is the set in its iteration order. *)

Module CrossSheet.

Abbreviation deps_map := (list (str * list str)).

(** A literal of the map, from string literals. *)
Definition deps_of (items : list (string * list string)) : deps_map :=
  map (fun kv => (list_ascii_of_string kv.1, map list_ascii_of_string kv.2)) items.

(** [dependencies.get(node, [])] *)
Definition deps_get (dependencies : deps_map) (node : str) : list str :=
  default [] (Dict.get dependencies node).

(** [s.add(x)] and [s.update(xs)] on a set kept as a duplicate-free list. *)
Definition set_add (s : list str) (x : str) : list str :=
  if decide (x ∈ s) then s else s ++ [x].

Definition set_update (s xs : list str) : list str := foldl set_add s xs.

(** [a.issubset(b)] *)
Definition issubset (a b : list str) : bool := forallb (fun x => bool_decide (x ∈ b)) a.

(** *** _calculate_processing_order *)

(** The loop that fills [all_sheets]. *)
Definition collect_sheets (dependencies : deps_map) : list str :=
  foldl (fun all_sheets kv => set_update (set_add all_sheets kv.1) kv.2) [] dependencies.

(** The sheets of [all_sheets - processed] whose dependencies are all
    processed. *)
Definition ready_sheets (dependencies : deps_map) (all_sheets processed : list str) : list str :=
  filter (fun sheet => issubset (deps_get dependencies sheet) processed = true)
    (list_difference all_sheets processed).

(** The [while] loop; [None] when the fuel runs out. *)
Fixpoint order_loop (fuel : nat) (dependencies : deps_map) (all_sheets : list str)
    (levels : gmap nat (list str)) (processed : list str) (current_level : nat)
    : option (gmap nat (list str)) :=
  match fuel with
  | O => None
  | S fuel' =>
      if length processed <? length all_sheets then
        let current_level_sheets := ready_sheets dependencies all_sheets processed in
        match current_level_sheets with
        | _ :: _ =>
            order_loop fuel' dependencies all_sheets
              (<[current_level := current_level_sheets]> levels)
              (set_update processed current_level_sheets)
              (S current_level)
        | [] =>
            let remaining := list_difference all_sheets processed in
            Some (<[current_level := remaining]> levels)
        end
      else Some levels
  end.

Definition _calculate_processing_order (dependencies : deps_map) : option (gmap nat (list str)) :=
  let all_sheets := collect_sheets dependencies in
  let level_0 := list_difference all_sheets dependencies.*1 in
  let fuel := S (length all_sheets) in
  match level_0 with
  | _ :: _ => order_loop fuel dependencies all_sheets {[0 := level_0]} (set_update [] level_0) 1
  | [] => order_loop fuel dependencies all_sheets ∅ [] 0
  end.

(** A sheet the map mentions, as a key or in a set. *)
Definition mentioned (dependencies : deps_map) (sheet : str) : Prop :=
  exists key deps, (key, deps) ∈ dependencies /\ (sheet = key \/ sheet ∈ deps).

(** *** _detect_circular_dependencies *)

(** What [has_cycle] returns: [False], [True] or a list. *)
Inductive pyval :=
| PFalse
| PTrue
| PList (l : list str).

(** [bool(v)] *)
Definition truthy (v : pyval) : bool :=
  match v with
  | PFalse => false
  | PTrue => true
  | PList l => bool_decide (l <> [])
  end.

(** The dicts and the list the calls of [has_cycle] share and mutate. *)
Record dfs_state := DfsState {
  visited : gmap str bool;
  rec_stack : gmap str bool;
  path : list str
}.

Inductive result :=
| Done (v : pyval) (st : dfs_state)   (** returned *)
| ValueError                          (** [path.index] did not find the sheet *)
| OutOfFuel.

(** [d.get(key, False)] *)
Definition flag (d : gmap str bool) (key : str) : bool := default false (d !! key).

(** [path.index(x)] *)
Fixpoint index (x : str) (l : list str) : option nat :=
  match l with
  | [] => None
  | y :: l' => if decide (y = x) then Some 0 else S <$> index x l'
  end.

(** [path.pop()] *)
Definition pop (l : list str) : list str := take (length l - 1) l.

Definition enter (node : str) (st : dfs_state) : dfs_state :=
  DfsState (<[node := true]> (visited st)) (<[node := true]> (rec_stack st)) (path st ++ [node]).

Definition leave (node : str) (st : dfs_state) : dfs_state :=
  DfsState (visited st) (<[node := false]> (rec_stack st)) (pop (path st)).

Fixpoint has_cycle (fuel : nat) (dependencies : deps_map) (node : str) (st : dfs_state) : result :=
  match fuel with
  | O => OutOfFuel
  | S fuel' =>
      (fix neighbors (ns : list str) (st : dfs_state) : result :=
         match ns with
         | [] => Done PFalse (leave node st)
         | neighbor :: ns' =>
             if negb (flag (visited st) neighbor) then
               match has_cycle fuel' dependencies neighbor st with
               | Done v st' => if truthy v then Done PTrue st' else neighbors ns' st'
               | r => r
               end
             else if flag (rec_stack st) neighbor then
               match index neighbor (path st) with
               | Some cycle_start => Done (PList (drop cycle_start (path st))) st
               | None => ValueError
               end
             else neighbors ns' st
         end) (deps_get dependencies node) (enter node st)
  end.

(** The number of sheets bounds the depth of the recursion. *)
Definition dfs_fuel (dependencies : deps_map) : nat := S (length (collect_sheets dependencies)).

Inductive detected :=
| Returned (cycle : list str)
| Raised
| Diverged.

(** The loop over the keys of [dependencies]; [visited] and [rec_stack] live
    across the turns, [path] starts empty in each. *)
Fixpoint detect_loop (dependencies : deps_map) (nodes : list str)
    (visited rec_stack : gmap str bool) : detected :=
  match nodes with
  | [] => Returned []
  | node :: nodes' =>
      if negb (flag visited node) then
        match has_cycle (dfs_fuel dependencies) dependencies node (DfsState visited rec_stack []) with
        | Done v st =>
            match v with
            | PList ((_ :: _) as l) => Returned l
            | _ => detect_loop dependencies nodes' (CrossSheet.visited st) (CrossSheet.rec_stack st)
            end
        | ValueError => Raised
        | OutOfFuel => Diverged
        end
      else detect_loop dependencies nodes' visited rec_stack
  end.

Definition _detect_circular_dependencies (dependencies : deps_map) : detected :=
  detect_loop dependencies dependencies.*1 ∅ ∅.

(** *** _extract_cross_references *)

Definition sheet_name_atoms : list atom := [Cls Chars.alpha_; LazyStar Chars.word_space].

Definition literal (s : string) : list atom :=
  map (fun c => Cls (Chars.lit c)) (list_ascii_of_string s).

(** [self.patterns], in the order of the dict. *)
Definition patterns : list (str * pattern) :=
  [ (* r"([A-Za-z_][\w\s]*?)!([A-Z]+\d+)" *)
    ("sheet_cell" : str,
     Pattern (sheet_name_atoms ++ literal "!" ++ [Plus Chars.upper; Plus Chars.digit])
       [(0, 2); (3, 2)]);
    (* r"([A-Za-z_][\w\s]*?)!([A-Z]+\d+:[A-Z]+\d+)" *)
    ("sheet_range" : str,
     Pattern (sheet_name_atoms ++ literal "!" ++ [Plus Chars.upper; Plus Chars.digit]
                ++ literal ":" ++ [Plus Chars.upper; Plus Chars.digit])
       [(0, 2); (3, 5)]);
    (* r"([A-Za-z_][\w\s]*?)!([A-Z]+:[A-Z]+)" *)
    ("sheet_column" : str,
     Pattern (sheet_name_atoms ++ literal "!" ++ [Plus Chars.upper] ++ literal ":"
                ++ [Plus Chars.upper])
       [(0, 2); (3, 3)]);
    (* r"'([^']+)'!([A-Z]+\d+)" *)
    ("quoted_sheet" : str,
     Pattern (literal "'" ++ [Plus (Chars.not_lit "'")] ++ literal "'!"
                ++ [Plus Chars.upper; Plus Chars.digit])
       [(1, 1); (4, 2)]);
    (* r"VLOOKUP\s*\([^,]+,\s*([A-Za-z_][\w\s]*?)!([^,\)]+)" *)
    ("vlookup_cross" : str,
     Pattern (literal "VLOOKUP" ++ [Star Chars.space] ++ literal "("
                ++ [Plus Chars.not_comma] ++ literal "," ++ [Star Chars.space]
                ++ sheet_name_atoms ++ literal "!" ++ [Plus Chars.not_comma_paren])
       [(12, 2); (15, 1)]) ].

Record cross_ref := CrossRef {
  ref_type : str;
  source_sheet : str;
  target_sheet : str;
  target_reference : str;
  ref_formula : str
}.

(** The target sheet and reference of one element of [findall]; [None] is
    the [continue] of the loop. *)
Definition target_of (match_ : found) : option (str * str) :=
  match match_ with
  | FTuple gs => Some (nth 0 gs [], nth 1 gs [])
  | FStr m =>
      let parts := split "!" m in
      if length parts =? 2 then Some (strip (Chars.lit "'") (nth 0 parts []), nth 1 parts [])
      else None
  end.

Definition _extract_cross_references (formula current_sheet : str) : list cross_ref :=
  flat_map (fun named =>
    omap (fun match_ =>
            match target_of match_ with
            | Some (target_sheet, target_ref) =>
                if decide (target_sheet <> current_sheet)
                then Some (CrossRef named.1 current_sheet target_sheet target_ref formula)
                else None
            | None => None
            end) (findall named.2 formula)) patterns.

(** *** suggest_optimizations *)

Inductive suggestion :=
| dependencia_circular (circular : list str)
| alta_complexidade (sheet : str) (n : nat)
| excesso_referencias (sheet : str) (n : nat).

(** [workbook_data['dependencies']] and [workbook_data['cross_references']];
    [None] when the cycle detection does not return. *)
Definition suggest_optimizations (dependencies : deps_map)
    (cross_references : list (str * list cross_ref)) : option (list suggestion) :=
  match _detect_circular_dependencies dependencies with
  | Returned circular =>
      Some ((match circular with
             | _ :: _ => [dependencia_circular circular]
             | [] => []
             end)
            ++ omap (fun kv => if 5 <? length kv.2 then Some (alta_complexidade kv.1 (length kv.2))
                               else None) dependencies
            ++ omap (fun kv => if 20 <? length kv.2
                               then Some (excesso_referencias kv.1 (length kv.2))
                               else None) cross_references)
  | _ => None
  end.

End CrossSheet.

(** ** impact_analyzer.py, validate.py, report_generator.py: the cascade *)

Module Impact.

(** The value under ['mapeamento']: a dict from references to column names
    in insertion order, or something that is not a dict. *)
Inductive mapping :=
| MapDict (items : list (str * str))
| NotADict.

(** What [analisar_cadeia_impacto] reads of a formula's record; a field
    absent from the dict is [None]. *)
Record formula_info := FormulaInfo {
  formula_traduzida : option str;
  mapeamento : option mapping
}.

(** [formula_info.get('mapeamento', {})] *)
Definition get_mapeamento (info : formula_info) : mapping :=
  default (MapDict []) (mapeamento info).

(** [cadeia_impacto[col_ref].add(col_formula)], the set created when the key
    is new. *)
Definition add_impact (cadeia_impacto : gmap str (gset str)) (col_ref col_formula : str)
    : gmap str (gset str) :=
  <[col_ref := default ∅ (cadeia_impacto !! col_ref) ∪ {[col_formula]}]> cadeia_impacto.

(** ImpactAnalyzer.analisar_cadeia_impacto; [formulas] in the order of the
    dict. *)
Definition analisar_cadeia_impacto (formulas : list (str * formula_info))
    : gmap str (gset str) :=
  foldl (fun cadeia_impacto entry =>
           match get_mapeamento entry.2 with
           | MapDict items =>
               foldl (fun cadeia col_ref => add_impact cadeia col_ref entry.1)
                 cadeia_impacto items.*2
           | NotADict => cadeia_impacto
           end) ∅ formulas.

(** The impact set of an origin column: empty when the map has no key. *)
Definition impact_set (cadeia_impacto : gmap str (gset str)) (col : str) : gset str :=
  default ∅ (cadeia_impacto !! col).

(** validate.py, [main]: the entry of [impacto_cascata] for one origin. *)
Record cascade := Cascade {
  columns : list str;
  formulas_afetadas : list str;
  divergent_value : str
}.

(** ['.' in item] *)
Definition has_dot (item : str) : Prop := "."%char ∈ item.

Definition cascade_of (cols_afetadas : gset str) : option cascade :=
  if decide (cols_afetadas <> ∅) then
    Some (Cascade (filter (fun item => ~ has_dot item) (elements cols_afetadas))
                  (filter has_dot (elements cols_afetadas))
                  "Ver detalhes")
  else None.

Definition impacto_cascata (cadeia_impacto : gmap str (gset str)) : gmap str cascade :=
  omap cascade_of cadeia_impacto.

(** report_generator.py, ReportGenerator._create_cascade_impact_sheet: the
    level and the estimate of one row. *)
Inductive nivel := MODERADO | ALTO | CRITICO.

Definition impact_level (impactos : cascade) : nat :=
  length (columns impactos) + length (formulas_afetadas impactos).

Definition nivel_de_impacto (impactos : cascade) : nivel :=
  if 5 <? impact_level impactos then CRITICO
  else if 2 <? impact_level impactos then ALTO
  else MODERADO.

Definition estimativa (impactos : cascade) : str :=
  if 5 <? impact_level impactos then "Requer revisao completa do processo"
  else if 2 <? impact_level impactos then "Verificar origem e recalcular dependencias"
  else "Correcao pontual necessaria".

(** *** The reverse dependency relation *)

(** One reverse-dependency hop: the formula [col_formula] has [col] among the
    columns its mapping refers to. *)
Definition consumes (formulas : list (str * formula_info)) (col col_formula : str) : Prop :=
  exists info items,
    (col_formula, info) ∈ formulas /\ get_mapeamento info = MapDict items /\ col ∈ items.*2.

(** Reachable by one or more hops. *)
Definition reaches (formulas : list (str * formula_info)) : relation str :=
  tc (consumes formulas).

(** A formula record with a mapping, from string literals. *)
Definition formula_with (items : list (string * string)) : formula_info :=
  FormulaInfo None
    (Some (MapDict (map (fun kv => (list_ascii_of_string kv.1, list_ascii_of_string kv.2)) items))).

End Impact.

(** ** Workbooks as the discovery and the extraction read them *)

Module Workbook.

(** A worksheet: its title and, for each column from the first on, the
    header cell (row 1) and the cell of the formula row (row 2, or the
    sample row).  A header cell is [None] when empty, else its value as
    [str] prints it; a formula-row cell is [None] unless its value is a
    string. *)
Record worksheet := Worksheet {
  title : str;
  cells : list (option str * option str)
}.

(** The sheets in the order of [wb.sheetnames]. *)
Abbreviation workbook := (list worksheet).

(** [wb[name]] when [name in wb.sheetnames] *)
Definition sheet_named (wb : workbook) (name : str) : option worksheet :=
  head (filter (fun ws => title ws = name) wb).

(** What [_analyze_formula] reads of the workbook: titles and header rows. *)
Definition header_rows (wb : workbook) : list (str * list (option str)) :=
  map (fun ws => (title ws, (cells ws).*1)) wb.

(** A worksheet from string literals. *)
Definition worksheet_of (title : string) (cells : list (option string * option string))
    : worksheet :=
  Worksheet title
    (map (fun c => (list_ascii_of_string <$> c.1, list_ascii_of_string <$> c.2)) cells).

(** [value.startswith('=')] for a cell that holds a string. *)
Definition is_formula (value : str) : bool := starts_with "=" value.

End Workbook.

(** ** formula_auto_discovery.py: discover_formulas, discover_all_sheets *)

Module Discovery.

Import Workbook.

Section Discover.

(** [_analyze_formula] reads the formula, the header rows of the workbook
    and the sheet it is called on; its result is carried as it is. *)
Context {analysis : Type}.
Variable _analyze_formula : str -> list (str * list (option str)) -> str -> analysis.

(** The record of a discovered formula; [column] is the index whose letter
    the program stores. *)
Record discovered := Discovered {
  header : str;
  column : nat;
  formula_original : str;
  formula_pattern : str;
  formula_info : analysis;
  aba : str
}.

(** [f"{sheet_name}.{header}" if sheet_name != "Sheet" else header] *)
Definition formula_key (sheet_name header : str) : str :=
  if decide (sheet_name <> "Sheet") then sheet_name ++ "." ++ header else header.

(** One turn of the loop over the columns: the assignment it makes, if any. *)
Definition discover_column (wb : workbook) (ws : worksheet) (col_idx : nat)
    (cell : option str * option str) : option (str * discovered) :=
  match cell with
  | (Some header, Some value) =>
      if bool_decide (header <> []) && is_formula value then
        Some (formula_key (title ws) header,
              Discovered header col_idx value (_generalize_formula value)
                (_analyze_formula value (header_rows wb) (title ws)) (title ws))
      else None
  | _ => None
  end.

Definition discover_formulas (wb : workbook) (ws : worksheet) (max_cols : nat)
    : list (str * discovered) :=
  foldl (fun formulas_found col =>
           match discover_column wb ws (S col.1) col.2 with
           | Some (formula_key, record) => Dict.set formulas_found formula_key record
           | None => formulas_found
           end) [] (imap pair (take max_cols (cells ws))).

(** [discover_all_sheets]: [max_cols] keeps its default. *)
Definition discover_all_sheets (wb : workbook) : list (str * discovered) :=
  foldl (fun all_formulas ws => Dict.update all_formulas (discover_formulas wb ws 300)) [] wb.

(** The assignments to [formulas_found] the discovery makes, over all sheets,
    in order. *)
Definition discoveries (wb : workbook) : list (str * discovered) :=
  flat_map (fun ws =>
    omap (fun col => discover_column wb ws (S col.1) col.2)
      (imap pair (take 300 (cells ws)))) wb.

End Discover.

End Discovery.

(** ** formula_extractor.py: _extract_multi_sheet *)

Module Extraction.

Import Workbook.

Record mapping := Mapping {
  header_resultado : str;
  header_traducao : gmap str str
}.

(** [abas_config]: for each sheet name, in the order of the dict, its
    ['mapeamento_formulas'] when it has one. *)
Abbreviation abas_config := (list (str * option (list mapping))).

Record extracted := Extracted {
  formula_original : str;
  formula_traduzida : str;
  aba : str;
  coluna_idx : nat;
  mapeamento : gmap str str;
  referencias_externas : list str;
  depends_on : option (list str)
}.

(** [_find_column_by_header]: the first column, counted from 1, whose header
    cell stripped of white space is the name. *)
Fixpoint find_column (headers : list (option str)) (header_name : str) (col : nat) : option nat :=
  match headers with
  | [] => None
  | cell :: headers' =>
      match cell with
      | Some value =>
          if bool_decide (value <> []) && bool_decide (strip Chars.space value = header_name)
          then Some col
          else find_column headers' header_name (S col)
      | None => find_column headers' header_name (S col)
      end
  end.

Definition _find_column_by_header (ws : worksheet) (header_name : str) : option nat :=
  find_column (cells ws).*1 header_name 1.

(** [_extract_external_references]: [re.compile(r'(\w+)!')], duplicates
    removed. *)
Definition external_ref_pattern : pattern :=
  Pattern [Plus Chars.word; Cls (Chars.lit "!")] [(0, 1)].

Definition _extract_external_references (formula : str) : list str :=
  remove_dups (omap (fun f => match f with FStr m => Some m | FTuple _ => None end)
                 (findall external_ref_pattern formula)).

(** One turn of the loop over the mappings of a sheet: the assignment it
    makes, if any. *)
Definition extract_mapping (several : bool) (aba_nome : str) (ws : worksheet) (m : mapping)
    : option (str * extracted) :=
  match _find_column_by_header ws (header_resultado m) with
  | None => None
  | Some col_idx =>
      match (cells ws).*2 !! (col_idx - 1) with
      | Some (Some value) =>
          if is_formula value then
            let formula_key :=
              if several then aba_nome ++ "." ++ header_resultado m else header_resultado m in
            Some (formula_key,
                  Extracted value (_translate_formula_multi_sheet value (header_traducao m))
                    aba_nome col_idx (header_traducao m)
                    (_extract_external_references value) None)
          else None
      | _ => None
      end
  end.

(** The assignments of one sheet of the configuration. *)
Definition extract_sheet (several : bool) (wb : workbook) (aba : str * option (list mapping))
    : list (str * extracted) :=
  match aba.2, sheet_named wb aba.1 with
  | Some mappings, Some ws => omap (extract_mapping several aba.1 ws) mappings
  | _, _ => []
  end.

(** The loops of [_extract_multi_sheet] that fill [all_formulas]. *)
Definition extract_loop (config : abas_config) (wb : workbook) : list (str * extracted) :=
  let several := bool_decide (1 < length config) in
  foldl (fun all_formulas aba =>
           foldl (fun all_formulas kv => Dict.set all_formulas kv.1 kv.2)
             all_formulas (extract_sheet several wb aba))
    [] config.

(** [other_key.split('.')[-1] if '.' in other_key else other_key] *)
Definition col_name (key : str) : str := default key (last (split "." key)).

(** One turn of the loop of [_analyze_formula_dependencies]: the record
    under [formula_key] gets as ['depends_on'] the other keys whose column
    name occurs in its translated formula. *)
Definition with_depends_on (formulas : list (str * extracted)) (formula_key : str)
    (formula_info : extracted) : extracted :=
  let dependencies :=
    filter (fun other_key =>
              other_key <> formula_key /\
              contains (formula_traduzida formula_info) (col_name other_key) = true)
      formulas.*1 in
  Extracted (formula_original formula_info) (formula_traduzida formula_info)
    (aba formula_info) (coluna_idx formula_info) (mapeamento formula_info)
    (referencias_externas formula_info) (Some dependencies).

Definition _analyze_formula_dependencies (formulas : list (str * extracted))
    : list (str * extracted) :=
  map (fun entry => (entry.1, with_depends_on formulas entry.1 entry.2)) formulas.

Definition _extract_multi_sheet (config : abas_config) (wb : workbook) : list (str * extracted) :=
  _analyze_formula_dependencies (extract_loop config wb).

(** The assignments to [all_formulas], over all sheets of the configuration,
    in order. *)
Definition extractions (config : abas_config) (wb : workbook) : list (str * extracted) :=
  flat_map (extract_sheet (bool_decide (1 < length config)) wb) config.

End Extraction.

(** ** impact_analyzer.py: ImpactAnalyzer.gerar_relatorio_impacto

    The validation results are dict objects the function is handed by
    reference.  The store maps a reference to the dict it holds;
    [resultado.copy()] allocates a new object, the assignment of a field
    mutates the object it is applied to. *)

Module Report.

(** The values a validation result holds.  A float (or any other object) is
    given by the text [str] prints for it. *)
Inductive value :=
| VStr (s : str)
| VInt (n : Z)
| VBool (b : bool)
| VNone
| VFloat (repr : str).

(** [str(v)], as an f-string formats a field. *)
Definition py_str (v : value) : str :=
  match v with
  | VStr s => s
  | VInt n => list_ascii_of_string (pretty n)
  | VBool true => "True"
  | VBool false => "False"
  | VNone => "None"
  | VFloat repr => repr
  end.

Abbreviation ref := nat.
Abbreviation object := (gmap str value).
Abbreviation store := (gmap ref object).

Definition divergencias_na_formula : str := "divergencias_na_formula".

(** The fields [Validator.validate] gives every result (['chave'] is added
    when the key column is known). *)
Definition validator_fields : list str :=
  strs ["linha_idx"; "coluna"; "valor_arquivo_1"; "valor_arquivo_2";
        "resultado"; "tolerancia_aplicada"].

(** A result as the validator builds it: it has the validator's fields and
    is not enriched yet. *)
Definition validation_result (resultado : object) : Prop :=
  Forall (fun field => is_Some (resultado !! field)) validator_fields /\
  resultado !! divergencias_na_formula = None.

(** [f"{chave}_{coluna}_{linha_idx}"]; [None] is the [KeyError] of
    [resultado['coluna']]. *)
Definition resultado_key (resultado : object) : option str :=
  let linha_idx := default (VInt 0) (resultado !! (list_ascii_of_string "linha_idx")) in
  coluna ← resultado !! (list_ascii_of_string "coluna");
  let chave :=
    default (VStr ("Linha_" ++ py_str linha_idx))
      (resultado !! (list_ascii_of_string "chave")) in
  Some (py_str chave ++ "_" ++ py_str coluna ++ "_" ++ py_str linha_idx).

(** [resultado.copy()]: a new object with the same fields. *)
Definition copy (h : store) (resultado : object) : store * ref :=
  let new := fresh (dom h) in
  (<[new := resultado]> h, new).

(** [obj[key] = v] *)
Definition setitem (h : store) (obj : ref) (key : str) (v : value) : store :=
  alter (insert key v) obj h.

(** The loop; [resultados_com_impacto] is the list being built.  [None] when
    a result is not in the store or has no ['coluna']. *)
Fixpoint gerar_loop (impacto_por_resultado : gmap str str) (h : store)
    (validation_results resultados_com_impacto : list ref) : option (store * list ref) :=
  match validation_results with
  | [] => Some (h, resultados_com_impacto)
  | r :: rest =>
      resultado ← h !! r;
      key ← resultado_key resultado;
      let '(h, resultado_enriquecido) := copy h resultado in
      let divergencias_msg := default [] (impacto_por_resultado !! key) in
      let h := setitem h resultado_enriquecido divergencias_na_formula (VStr divergencias_msg) in
      gerar_loop impacto_por_resultado h rest (resultados_com_impacto ++ [resultado_enriquecido])
  end.

Definition gerar_relatorio_impacto (impacto_por_resultado : gmap str str) (h : store)
    (validation_results : list ref) : option (store * list ref) :=
  gerar_loop impacto_por_resultado h validation_results [].

(** The output object [out] is the input object [inp] with the one field
    ['divergencias_na_formula'] added: the field is new, it holds the message
    found for the result, and every field of the input is there unchanged. *)
Definition enriched (impacto_por_resultado : gmap str str) (inp out : object) : Prop :=
  exists key,
    resultado_key inp = Some key /\
    inp !! divergencias_na_formula = None /\
    out !! divergencias_na_formula = Some (VStr (default [] (impacto_por_resultado !! key))) /\
    dom out = dom inp ∪ {[divergencias_na_formula]} /\
    size out = S (size inp) /\
    forall field, field <> divergencias_na_formula -> out !! field = inp !! field.

(** An object from its fields, the names given as string literals. *)
Definition object_of (fields : list (string * value)) : object :=
  list_to_map (map (fun kv => (list_ascii_of_string kv.1, kv.2)) fields).

End Report.

(** ** Level assignments *)

Module LevelSpec.

(** [levels] splits the sheets [xs]: every level is duplicate-free, the
    sheets of the levels are those of [xs], and no sheet is in two levels. *)
Definition partition_of (levels : gmap nat (list str)) (xs : list str) : Prop :=
  (forall k l, levels !! k = Some l -> NoDup l) /\
  (forall x, x ∈ xs <-> exists k l, levels !! k = Some l /\ x ∈ l) /\
  (forall k1 k2 l1 l2 x,
     levels !! k1 = Some l1 -> levels !! k2 = Some l2 -> x ∈ l1 -> x ∈ l2 -> k1 = k2).

End LevelSpec.

(** ** formula_extractor.py: FormulaExtractor.validate_translation_map *)

Module Validate.



End Validate.

(** ** Patterns without row numbers *)

Module PatternSpec.



End PatternSpec.

(** ** The search of the cycle detector, turn by turn *)

Module DfsSpec.

Import CrossSheet.

(** The loop of [has_cycle] over the neighbours of [node], the recursive
    calls made with [fuel]. *)
Fixpoint neighbors_loop (fuel : nat) (dependencies : deps_map) (node : str)
    (ns : list str) (st : dfs_state) : result :=
  match ns with
  | [] => Done PFalse (leave node st)
  | neighbor :: ns' =>
      if negb (flag (visited st) neighbor) then
        match has_cycle fuel dependencies neighbor st with
        | Done v st' => if truthy v then Done PTrue st' else neighbors_loop fuel dependencies node ns' st'
        | r => r
        end
      else if flag (rec_stack st) neighbor then
        match index neighbor (path st) with
        | Some cycle_start => Done (PList (drop cycle_start (path st))) st
        | None => ValueError
        end
      else neighbors_loop fuel dependencies node ns' st
  end.

(** The sheets not yet visited. *)
Definition unvisited (dependencies : deps_map) (visited : gmap str bool) : list str :=
  filter (fun sheet => flag visited sheet = false) (collect_sheets dependencies).

(** What the detector may answer: no cycle, one sheet that depends on
    itself, or the exception. *)
Definition self_cycle_or_none (dependencies : deps_map) (d : detected) : Prop :=
  match d with
  | Returned [] => True
  | Returned [sheet] => sheet ∈ deps_get dependencies sheet
  | Returned _ => False
  | Raised => True
  | Diverged => False
  end.

(** What a call leaves on [path], by what it returns: [False] restores the
    path; a list is cut from the path of the call, is not empty and starts at
    a neighbour of the node. *)
Definition call_ok (dependencies : deps_map) (node : str) (p : list str) (r : result) : Prop :=
  match r with
  | Done PFalse st' => path st' = p
  | Done (PList l) st' =>
      exists neighbor i,
        neighbor ∈ deps_get dependencies node /\
        index neighbor (p ++ [node]) = Some i /\ l = drop i (p ++ [node])
  | _ => True
  end.

(** The calls only add to [visited]. *)
Definition grows (v v' : gmap str bool) : Prop :=
  forall x, flag v x = true -> flag v' x = true.

(** With fuel for every unvisited sheet a call returns or raises, and it
    only adds to [visited]. *)
Definition call_returns (v : gmap str bool) (r : result) : Prop :=
  match r with
  | Done _ st' => grows v (visited st')
  | ValueError => True
  | OutOfFuel => False
  end.

End DfsSpec.

(** ** cross_sheet_analyzer.py: analyze_workbook_native, generate_dependency_graph

    Reading the workbook file is outside the embedding: the sheets come as
    [_extract_sheet_info] and [_extract_sheet_data] return them, each with
    its formulas in the order of the dict. *)

Module Analysis.

Import CrossSheet.

Record workbook_data := WorkbookData {
  sheets : list (str * list (str * str));
  cross_references : list (str * list cross_ref);
  dependencies : deps_map
}.

(** [d[key]] on a [defaultdict]: the value, or the default of a new key. *)
Definition get_or {V} (d : list (str * V)) (key : str) (dflt : V) : V :=
  default dflt (Dict.get d key).

(** [workbook_data['dependencies'][ref['target_sheet']].add(sheet_name)] *)
Definition add_dependency (sheet_name : str) (dependencies : deps_map) (ref : cross_ref)
    : deps_map :=
  Dict.set dependencies (target_sheet ref)
    (set_add (get_or dependencies (target_sheet ref) []) sheet_name).

(** The body of the loop over the formulas of a sheet. *)
Definition analyze_formula (sheet_name : str) (data : workbook_data) (formula : str)
    : workbook_data :=
  match _extract_cross_references formula sheet_name with
  | [] => data
  | (_ :: _) as refs =>
      WorkbookData (sheets data)
        (Dict.set (cross_references data) sheet_name
           (get_or (cross_references data) sheet_name [] ++ refs))
        (foldl (add_dependency sheet_name) (dependencies data) refs)
  end.

(** The body of the loop over the sheets. *)
Definition analyze_sheet (data : workbook_data) (sheet : str * list (str * str))
    : workbook_data :=
  foldl (analyze_formula sheet.1)
    (WorkbookData (Dict.set (sheets data) sheet.1 sheet.2)
       (cross_references data) (dependencies data))
    sheet.2.*2.

Definition analyze_workbook_native (sheet_data : list (str * list (str * str)))
    : workbook_data :=
  foldl analyze_sheet (WorkbookData [] [] []) sheet_data.

Record node := Node { node_id : str; formulas_count : nat }.
Record edge := Edge { edge_source : str; edge_target : str; edge_count : nat }.

Record graph := Graph {
  nodes : list node;
  edges : list edge;
  levels : option (gmap nat (list str))
}.

(** The edges of one source sheet: one for each target of its references,
    with the number of references to it.  The order in which Python iterates
    the set [targets] is not fixed by the language; the targets are taken here
    in the order of their first reference, and the properties below do not
    depend on it. *)
Definition edges_of (source_sheet : str) (refs : list cross_ref) : list edge :=
  let targets := foldl (fun targets ref => set_add targets (target_sheet ref)) [] refs in
  map (fun target =>
         Edge source_sheet target
           (length (filter (fun r => target_sheet r = target) refs)))
    targets.

Definition generate_dependency_graph (data : workbook_data) : graph :=
  Graph (map (fun sheet => Node sheet.1 (length sheet.2)) (sheets data))
        (flat_map (fun entry => edges_of entry.1 entry.2) (cross_references data))
        (_calculate_processing_order (dependencies data)).

(** The references of sheet [s] recorded in the data. *)
Definition refs_of (data : workbook_data) (s : str) : list cross_ref :=
  get_or (cross_references data) s [].

(** The references recorded under a sheet have it as source, and the
    dependencies are the cross references read backwards. *)
Definition consistent (data : workbook_data) : Prop :=
  (forall s ref, ref ∈ refs_of data s -> source_sheet ref = s /\ target_sheet ref <> s) /\
  (forall s t, s ∈ deps_get (dependencies data) t
               <-> exists ref, ref ∈ refs_of data s /\ target_sheet ref = t).

End Analysis.

(** ** What the levels of the processing order promise *)

Module OrderSpec.

Import CrossSheet.

(** [d] stands in a level before level [k]. *)
Definition earlier (levels : gmap nat (list str)) (k : nat) (d : str) : Prop :=
  exists k' l', k' < k /\ levels !! k' = Some l' /\ d ∈ l'.

(** Every dependency of [sheet] stands in a level before level [k]. *)
Definition settled (dependencies : deps_map) (levels : gmap nat (list str))
    (k : nat) (sheet : str) : Prop :=
  forall d, d ∈ deps_get dependencies sheet -> earlier levels k d.

(** Level [k] holds sheets whose dependencies all stand in earlier levels, or
    it is the last level and each of its sheets has a dependency that stands
    in no earlier level. *)
Definition level_ok (dependencies : deps_map) (levels : gmap nat (list str))
    (k : nat) (l : list str) : Prop :=
  (forall sheet, sheet ∈ l -> settled dependencies levels k sheet) \/
  ((forall k', k < k' -> levels !! k' = None) /\
   forall sheet, sheet ∈ l ->
     exists d, d ∈ deps_get dependencies sheet /\ ~ earlier levels k d).

End OrderSpec.

(** ** What an extracted record promises *)

Module ExtractSpec.

Import Workbook Extraction.



End ExtractSpec.

(** ** impact_analyzer.py: ImpactAnalyzer.analyze_formula_dependencies

    The validation results are read from the store; the field ['resultado']
    of a result holds a bool, an int, a str, [None] or a float.  The map
    [dependencias_inversas] of step 1 is only logged. *)

Module Causes.

Import Impact Report.

(** Step 2, [formula_dependencies]: under the column name of each formula
    whose mapping is a dict, the values of the mapping. *)
Definition formula_dependencies (formulas : list (str * formula_info))
    : list (str * list str) :=
  foldl (fun formula_dependencies entry =>
           match get_mapeamento entry.2 with
           | MapDict items =>
               Dict.set formula_dependencies (Extraction.col_name entry.1) items.*2
           | NotADict => formula_dependencies
           end) [] formulas.

(** [sep.join(xs)] *)
Fixpoint join (sep : str) (xs : list str) : str :=
  match xs with
  | [] => []
  | [x] => x
  | x :: xs' => x ++ sep ++ join sep xs'
  end.

(** [bool(v)] *)
Definition truthy (v : value) : bool :=
  match v with
  | VStr s => bool_decide (s <> [])
  | VInt n => bool_decide (n <> 0%Z)
  | VBool b => b
  | VNone => false
  | VFloat repr =>
      negb (bool_decide (repr = list_ascii_of_string "0.0" \/
                         repr = list_ascii_of_string "-0.0"))
  end.

(** ["Possíveis causas: divergências em "] *)
Definition possiveis_causas : str :=
  list_ascii_of_string "Poss" ++ [ascii_of_nat 237] ++
  list_ascii_of_string "veis causas: diverg" ++ [ascii_of_nat 234] ++
  list_ascii_of_string "ncias em ".

(** The message for the dependencies [deps] of a divergent formula column. *)
Definition causes (deps : list str) : str :=
  match deps with
  | [] => []
  | _ :: _ =>
      possiveis_causas ++ join ", " (take 3 deps) ++
      (if 3 <? length deps
       then list_ascii_of_string " e outras " ++
            list_ascii_of_string (pretty (length deps - 3)) ++
            list_ascii_of_string " colunas"
       else [])
  end.

(** The message step 3 stores for a result; [None] is the [KeyError] of
    [resultado['coluna']] or [resultado['resultado']]. *)
Definition message (formula_dependencies : list (str * list str)) (resultado : object)
    : option str :=
  coluna ← resultado !! (list_ascii_of_string "coluna");
  res ← resultado !! (list_ascii_of_string "resultado");
  Some (match coluna with
        | VStr c =>
            match Dict.get formula_dependencies c with
            | Some deps => if truthy res then [] else causes deps
            | None => []
            end
        | _ => []
        end).

(** The loop of step 3; [impacto_por_resultado] is the dict being filled. *)
Fixpoint analyze_loop (formula_dependencies : list (str * list str)) (h : store)
    (validation_results : list ref) (impacto_por_resultado : gmap str str)
    : option (gmap str str) :=
  match validation_results with
  | [] => Some impacto_por_resultado
  | r :: rest =>
      resultado ← h !! r;
      msg ← message formula_dependencies resultado;
      resultado_key ← resultado_key resultado;
      analyze_loop formula_dependencies h rest (<[resultado_key := msg]> impacto_por_resultado)
  end.

Definition analyze_formula_dependencies (h : store) (validation_results : list ref)
    (formulas : list (str * formula_info)) : option (gmap str str) :=
  analyze_loop (formula_dependencies formulas) h validation_results ∅.

(** *** What the messages promise *)

(** The result at [r] has the key [key]. *)
Definition has_key (h : store) (key : str) (r : ref) : Prop :=
  h !! r ≫= resultado_key = Some key.

#[global] Instance has_key_dec (h : store) (key : str) (r : ref) : Decision (has_key h key r) :=
  decide_rel (=) (h !! r ≫= resultado_key) (Some key).

(** [j] is the index of the last result with the key. *)
Definition last_with_key (h : store) (validation_results : list ref) (key : str) (j : nat)
    : Prop :=
  (exists r, validation_results !! j = Some r /\ has_key h key r) /\
  forall j' r', j < j' -> validation_results !! j' = Some r' -> ~ has_key h key r'.

(** The assignments to [formula_dependencies], in order. *)
Definition dependency_assignments (formulas : list (str * formula_info))
    : list (str * list str) :=
  omap (fun entry =>
          match get_mapeamento entry.2 with
          | MapDict items => Some (Extraction.col_name entry.1, items.*2)
          | NotADict => None
          end) formulas.

End Causes.

(** ** cross_sheet_analyzer.py: CrossSheetAnalyzer._parse_cell_ref *)

Module CellRef.

(** [r'([A-Z]+)(\d+)'], matched at the start of the string by [re.match];
    group 1 is atom 0, group 2 is atom 1. *)
Definition parse_pattern : list atom := [Plus Chars.upper; Plus Chars.digit].

(** The loop over [col_str]. *)
Definition column_number (col_str : str) : Z :=
  foldl (fun col char => col * 26 + (Z.of_nat (Chars.code char) - 65 + 1))%Z 0%Z col_str.

(** [int(digits)] for a string of decimal digits. *)
Definition int (digits : str) : Z :=
  foldl (fun n d => n * 10 + (Z.of_nat (Chars.code d) - 48))%Z 0%Z digits.

Definition _parse_cell_ref (cell_ref : str) : Z * Z :=
  match rmatch parse_pattern None cell_ref with
  | Some (ps, _) => (column_number (pieces_at 0 1 ps), int (pieces_at 1 1 ps))
  | None => (0%Z, 0%Z)
  end.

(** [cell_ref] starts with column letters and a row number. *)
Definition starts_with_reference (cell_ref : str) : Prop :=
  exists col row rest : str,
    cell_ref = col ++ row ++ rest /\
    col <> [] /\ ReSpec.all Chars.upper col /\ row <> [] /\ ReSpec.all Chars.digit row.

End CellRef.

(** ** formula_extractor.py: FormulaExtractor._extract_dependencies_from_translated *)

Module TranslatedDeps.

(** [[A-Z_]] *)
Definition upper_ (c : ascii) : bool := Chars.upper c || Chars.lit "_" c.

(** [r'\b[A-Z][A-Z_]*[A-Z]\b'] *)
Definition name_pattern : pattern :=
  Pattern [WordB; Cls Chars.upper; Star upper_; Cls Chars.upper; WordB] [].

Definition excel_functions : list str :=
  strs ["IF"; "SUM"; "SUMIF"; "VLOOKUP"; "AVERAGEIF"; "AND"; "OR"; "NOT"].

(** The names found, the Excel functions removed; [list(set(...))] keeps one
    of each, here in the order of the first occurrence. *)
Definition _extract_dependencies_from_translated (formula_traduzida : str) : list str :=
  remove_dups
    (filter (fun d => d ∉ excel_functions)
       (omap (fun f => match f with FStr m => Some m | FTuple _ => None end)
          (findall name_pattern formula_traduzida))).

(** [name] stands in [formula] as a whole word: no word character before
    it, none after it. *)
Definition whole_word (formula name : str) : Prop :=
  exists pre post : str,
    formula = pre ++ name ++ post /\
    word_at (last pre) = false /\ word_at (head post) = false.

End TranslatedDeps.

(** ** What the translators put for a reference *)

Module MultiSheetSpec.

Import TranslateSpec.








End MultiSheetSpec.

(* ================================================================== *)
(** * Properties *)
(* ================================================================== *)

(** ** Soundness of the matcher

    Whatever [rmatch] returns splits the input, and each piece is text its
    atom accepts. *)

Module ReFacts.

Import ReSpec.

Lemma new_piece_inv r ps rest :
  new_piece r = Some (ps, rest) -> exists ps', ps = [] :: ps' /\ r = Some (ps', rest).
Proof.
  destruct r as [[ps0 rest0]|]; simpl; [|discriminate].
  intros [= <- <-]. eauto.
Qed.

Lemma cons_piece_inv c r ps rest :
  cons_piece c r = Some (ps, rest) ->
  exists x ps', ps = (c :: x) :: ps' /\ r = Some (x :: ps', rest).
Proof.
  destruct r as [[[|x ps0] rest0]|]; simpl; try discriminate.
  intros [= <- <-]. eauto.
Qed.

Lemma or_else_inv (r alt : res) x :
  or_else r alt = Some x -> r = Some x \/ (r = None /\ alt = Some x).
Proof. destruct r; simpl; [intros [= ->]; auto | auto]. Qed.

Lemma star_match_sound p k Q :
  sound k Q ->
  forall s prev ps rest,
    star_match p k prev s = Some (ps, rest) ->
    exists x ps', ps = x :: ps' /\ all p x /\ s = x ++ concat ps' ++ rest /\ Q ps'.
Proof.
  intros Hk. induction s as [|c s IH]; intros prev ps rest; simpl.
  - intros (ps' & -> & H)%new_piece_inv. apply Hk in H as [H1 H2].
    exists [], ps'. repeat split; [constructor | done | done].
  - assert (Hstop : new_piece (k prev (c :: s)) = Some (ps, rest) ->
              exists x ps', ps = x :: ps' /\ all p x /\
                c :: s = x ++ concat ps' ++ rest /\ Q ps').
    { intros (ps' & -> & H)%new_piece_inv. apply Hk in H as [H1 H2].
      exists [], ps'. repeat split; [constructor | done | done]. }
    destruct (p c) eqn:Hpc; [|exact Hstop].
    intros [H | [_ H]]%or_else_inv; [|auto].
    apply cons_piece_inv in H as (x & ps' & -> & H).
    apply IH in H as (x' & ps'' & [= <- <-] & Hall & -> & HQ).
    exists (c :: x), ps'. repeat split; [by constructor | done].
Qed.

Lemma lazy_match_sound p k Q :
  sound k Q ->
  forall s prev ps rest,
    lazy_match p k prev s = Some (ps, rest) ->
    exists x ps', ps = x :: ps' /\ all p x /\ s = x ++ concat ps' ++ rest /\ Q ps'.
Proof.
  intros Hk. induction s as [|c s IH]; intros prev ps rest; simpl.
  - intros [H | [_ H]]%or_else_inv; [|discriminate].
    apply new_piece_inv in H as (ps' & -> & H). apply Hk in H as [H1 H2].
    exists [], ps'. repeat split; [constructor | done | done].
  - intros [H | [_ H]]%or_else_inv.
    + apply new_piece_inv in H as (ps' & -> & H). apply Hk in H as [H1 H2].
      exists [], ps'. repeat split; [constructor | done | done].
    + destruct (p c) eqn:Hpc; [|discriminate].
      apply cons_piece_inv in H as (x & ps' & -> & H).
      apply IH in H as (x' & ps'' & [= <- <-] & Hall & -> & HQ).
      exists (c :: x), ps'. repeat split; [by constructor | done].
Qed.

Lemma zero_width_sound (k : cont) Q prev s ps rest :
  sound k Q ->
  new_piece (k prev s) = Some (ps, rest) ->
  exists ps', ps = [] :: ps' /\ s = concat ps' ++ rest /\ Q ps'.
Proof.
  intros Hk (ps' & -> & H)%new_piece_inv. apply Hk in H as [H1 H2]. eauto.
Qed.

Lemma one_char_sound (k : cont) Q c s ps rest :
  sound k Q ->
  cons_piece c (new_piece (k (Some c) s)) = Some (ps, rest) ->
  exists ps', ps = [c] :: ps' /\ s = concat ps' ++ rest /\ Q ps'.
Proof.
  intros Hk (x & ps' & -> & H)%cons_piece_inv.
  apply new_piece_inv in H as (ps'' & [= -> ->] & H).
  apply Hk in H as [H1 H2]. eauto.
Qed.

Theorem rmatch_sound pat : sound (rmatch pat) (Forall2 piece_ok pat).
Proof.
  induction pat as [|a pat IH]; intros prev s ps rest; simpl.
  { intros [= <- <-]. split; [done | constructor]. }
  destruct a as [p|p|p|p|p| |p|p].
  - destruct s as [|c s]; [discriminate|].
    destruct (p c) eqn:Hpc; [|discriminate].
    intros (ps' & -> & -> & HQ)%(one_char_sound _ _ _ _ _ _ IH).
    split; [done|]. constructor; [by exists c | done].
  - assert (Hskip : new_piece (rmatch pat prev s) = Some (ps, rest) ->
              s = concat ps ++ rest /\ Forall2 piece_ok (Opt p :: pat) ps).
    { intros (ps' & -> & -> & HQ)%(zero_width_sound _ _ _ _ _ _ IH).
      split; [done|]. constructor; [|done]. split; [simpl; lia | constructor]. }
    destruct s as [|c s]; [exact Hskip|].
    destruct (p c) eqn:Hpc; [|exact Hskip].
    intros [H | [_ H]]%or_else_inv; [|auto].
    apply (one_char_sound _ _ _ _ _ _ IH) in H as (ps' & -> & -> & HQ).
    split; [done|]. constructor; [|done].
    split; [simpl; lia | by repeat constructor].
  - intros (x & ps' & -> & Hall & -> & HQ)%(star_match_sound _ _ _ IH).
    split; [by rewrite concat_cons, <-app_assoc|]. by constructor.
  - destruct s as [|c s]; [discriminate|].
    destruct (p c) eqn:Hpc; [|discriminate].
    intros (x & ps' & -> & H)%cons_piece_inv.
    apply (star_match_sound _ _ _ IH) in H as (x' & ps'' & [= <- <-] & Hall & -> & HQ).
    split; [by rewrite concat_cons, <-app_assoc|].
    constructor; [|done]. split; [done | by constructor].
  - intros (x & ps' & -> & Hall & -> & HQ)%(lazy_match_sound _ _ _ IH).
    split; [by rewrite concat_cons, <-app_assoc|]. by constructor.
  - destruct (xorb _ _); [|discriminate].
    intros (ps' & -> & -> & HQ)%(zero_width_sound _ _ _ _ _ _ IH).
    split; [done|]. by constructor.
  - destruct (holds_at p prev); [discriminate|].
    intros (ps' & -> & -> & HQ)%(zero_width_sound _ _ _ _ _ _ IH).
    split; [done|]. by constructor.
  - destruct (holds_at p (head s)); [discriminate|].
    intros (ps' & -> & -> & HQ)%(zero_width_sound _ _ _ _ _ _ IH).
    split; [done|]. by constructor.
Qed.

End ReFacts.

(** ** Matches of [finditer] and the right-to-left substitution *)

Module TranslateFacts.

Import ReSpec ReFacts TranslateSpec.

Lemma spans_ok_weaken lo lo' formula ms :
  lo' <= lo -> spans_ok lo formula ms -> spans_ok lo' formula ms.
Proof. destruct ms as [|m ms]; simpl; [done|]. intros ? (? & ? & ? & ? & ?). repeat split; [lia | done..]. Qed.

Lemma finditer_scan_spans pat formula :
  forall s pre skip prev,
    formula = pre ++ s -> skip <= length s ->
    spans_ok (length pre + skip) formula (finditer_scan pat (length pre) skip prev s).
Proof.
  induction s as [|c s IH]; intros pre skip prev Hf Hskip; simpl; [done|].
  assert (Hf' : formula = (pre ++ [c]) ++ s) by (by rewrite <-app_assoc).
  assert (Hlen : length (pre ++ [c]) = S (length pre)) by (rewrite length_app; simpl; lia).
  simpl in Hskip.
  destruct skip as [|n].
  - destruct (rmatch pat prev (c :: s)) as [[ps rest]|] eqn:Hm.
    + destruct (length (concat ps)) as [|n] eqn:Hn.
      * rewrite <-Hlen. eapply spans_ok_weaken; [|apply (IH _ 0 _ Hf'); lia]. lia.
      * apply rmatch_sound in Hm as [Hs _].
        assert (Hle : S n <= length (c :: s)).
        { rewrite Hs, length_app. lia. }
        simpl in Hle. simpl. repeat split.
        -- lia.
        -- lia.
        -- rewrite Hf, length_app. simpl. lia.
        -- unfold text, slice. simpl.
           replace (length pre + S n - length pre) with (S n) by lia.
           rewrite Hf, drop_app_length, Hs, <-Hn. by rewrite take_app_length.
        -- rewrite <-Hlen. replace (length pre + S n) with (S (length pre) + n) by lia.
           rewrite <-Hlen. apply (IH _ n _ Hf'). lia.
    + rewrite <-Hlen. eapply spans_ok_weaken; [|apply (IH _ 0 _ Hf'); lia]. lia.
  - rewrite <-Hlen. replace (length pre + S n) with (S (length pre) + n) by lia.
    rewrite <-Hlen. apply (IH _ n _ Hf'). lia.
Qed.

Lemma finditer_spans pat formula : spans_ok 0 formula (finditer pat formula).
Proof. apply (finditer_scan_spans pat formula formula [] 0 None); [done | lia]. Qed.

Lemma finditer_scan_pieces pat (Q : list str -> Prop) :
  (forall prev s ps rest, rmatch pat prev s = Some (ps, rest) -> Q ps) ->
  forall s pos skip prev, Forall (fun m => Q (m_pieces m)) (finditer_scan pat pos skip prev s).
Proof.
  intros HQ. induction s as [|c s IH]; intros pos skip prev; simpl; [constructor|].
  destruct skip as [|n]; [|apply IH].
  destruct (rmatch pat prev (c :: s)) as [[ps rest]|] eqn:Hm; [|apply IH].
  destruct (length (concat ps)); [apply IH|].
  constructor; [simpl; eauto | apply IH].
Qed.

(** The loop runs over the matches from the last to the first. *)
Lemma foldl_reverse {A B} (f : A -> B -> A) a l :
  foldl f a (reverse l) = foldr (fun x acc => f acc x) a l.
Proof.
  induction l as [|x l IH]; [done|].
  by rewrite reverse_cons, foldl_app, IH.
Qed.

Lemma slice_full_prefix (s : str) a b : a <= b -> take a s ++ slice s a b = take b s.
Proof.
  intros Hab. unfold slice.
  rewrite <-(take_drop a (take b s)) at 1.
  rewrite take_take, Nat.min_l by lia.
  by rewrite skipn_firstn_comm.
Qed.

Lemma translate_fold translation_map formula : forall ms lo,
  spans_ok lo formula ms ->
  foldr (fun m acc => translate_step translation_map acc m) formula ms
  = take lo formula ++ splice translation_map formula lo ms.
Proof.
  induction ms as [|m ms IH]; intros lo; simpl.
  { intros _. by rewrite take_drop. }
  intros (Hlo & Hlt & Hend & Htext & Hrest).
  rewrite (IH _ Hrest). unfold translate_step, token_image.
  rewrite !app_assoc, slice_full_prefix by done.
  destruct (translation_map !! group_at 1 1 m) as [new_name|].
  - unfold replace_span.
    rewrite take_app_le by (rewrite length_take; lia).
    rewrite take_take, Nat.min_l by lia.
    rewrite drop_app_length' by (rewrite length_take; lia).
    by rewrite <-app_assoc.
  - by rewrite slice_full_prefix by lia.
Qed.



End TranslateFacts.

(** ** Generalization *)

Module GeneralizeFacts.

Import ReSpec ReFacts GeneralizeSpec.

Lemma upper_not_digit c : Chars.upper c = true -> Chars.digit c = false.
Proof.
  unfold Chars.upper, Chars.digit, Chars.between.
  rewrite andb_true_iff, andb_false_iff, !Nat.leb_le, !Nat.leb_gt. lia.
Qed.

Lemma run_after p s : run p s ++ after p s = s.
Proof. induction s as [|c s IH]; simpl; [done|]. destruct (p c); simpl; by rewrite ?IH. Qed.

Lemma after_head p s c : head (after p s) = Some c -> p c = false.
Proof.
  induction s as [|c' s IH]; simpl; [done|].
  destruct (p c') eqn:Hp; [done|]. by intros [= <-].
Qed.

Lemma last_of_cons prev c x : last_of prev (c :: x) = last_of (Some c) x.
Proof. unfold last_of. rewrite last_cons. by destruct (last x). Qed.

Lemma or_else_none (r : res) : or_else r None = r.
Proof. by destruct r. Qed.

(** A greedy repetition never gives a character back when the continuation
    cannot start with a character of the class. *)
Lemma star_match_commit p (k : cont) :
  (forall prev c s, p c = true -> k prev (c :: s) = None) ->
  forall s prev,
    star_match p k prev s =
    match k (last_of prev (run p s)) (after p s) with
    | Some (ps, rest) => Some (run p s :: ps, rest)
    | None => None
    end.
Proof.
  intros Hk. induction s as [|c s IH]; intros prev; simpl.
  - unfold last_of. simpl. by destruct (k prev []) as [[??]|].
  - destruct (p c) eqn:Hp.
    + rewrite (Hk _ _ _ Hp). simpl. rewrite or_else_none, IH, last_of_cons.
      by destruct (k _ _) as [[??]|].
    + unfold last_of. simpl. by destruct (k prev (c :: s)) as [[??]|].
Qed.

Lemma star_match_end p : forall s prev,
  star_match p (rmatch []) prev s = Some ([run p s], after p s).
Proof.
  induction s as [|c s IH]; intros prev; simpl; [done|].
  destruct (p c); [|done]. by rewrite IH.
Qed.

(** The match of [([A-Z]+)(\d+)] at the head of a string: the longest run of
    letters, then the longest run of digits, both non-empty. *)
Lemma generalize_pattern_match prev s :
  rmatch generalize_pattern prev s =
  match run Chars.upper s, after Chars.upper s with
  | (_ :: _) as col, d :: r =>
      if Chars.digit d then Some ([col; d :: run Chars.digit r], after Chars.digit r) else None
  | _, _ => None
  end.
Proof.
  unfold generalize_pattern.
  destruct s as [|c s]; [done|]. cbn [rmatch run after].
  destruct (Chars.upper c) eqn:Hc; [|done].
  rewrite star_match_commit.
  2:{ intros prev' c' s' Hup. simpl. by rewrite (upper_not_digit _ Hup). }
  cbn [rmatch].
  destruct (after Chars.upper s) as [|d r]; [done|].
  destruct (Chars.digit d); [|done].
  by rewrite star_match_end.
Qed.

Lemma sub_scan_skip pat repl : forall x prev r,
  sub_scan pat repl (length x) prev (x ++ r) = sub_scan pat repl 0 (last_of prev x) r.
Proof.
  induction x as [|c x IH]; intros prev r; [done|].
  simpl. by rewrite IH, last_of_cons.
Qed.

Lemma row_machine_letters st col s :
  col <> [] -> all Chars.upper col ->
  row_machine st (col ++ s) = col ++ row_machine AfterLetter s.
Proof.
  intros Hne Hall. revert st. induction Hall as [|c col Hc Hall IH]; intros st; [done|].
  simpl. rewrite (upper_not_digit _ Hc), Hc. f_equal.
  destruct col as [|c' col]; [done|]. by apply IH.
Qed.

Lemma row_machine_digits row s :
  all Chars.digit row -> row_machine InRow (row ++ s) = row_machine InRow s.
Proof. induction 1 as [|c row Hc Hall IH]; [done|]. simpl. by rewrite Hc. Qed.

Lemma row_machine_no_digit st st' s :
  (forall c, head s = Some c -> Chars.digit c = false) ->
  row_machine st s = row_machine st' s.
Proof. destruct s as [|c s]; [done|]. intros H. simpl. by rewrite (H c). Qed.

Lemma all_run p s : all p (run p s).
Proof.
  induction s as [|c s IH]; simpl; [constructor|].
  destruct (p c) eqn:Hp; by constructor.
Qed.

Lemma generalize_scan : forall n s prev,
  length s = n ->
  sub_scan generalize_pattern generalize_repl 0 prev s = row_machine Outside s.
Proof.
  induction n as [n IH] using lt_wf_ind. intros s prev Hn.
  destruct s as [|c s]; [done|].
  cbn [sub_scan]. rewrite generalize_pattern_match.
  destruct (Chars.upper c) eqn:Hc.
  - cbn [run after]. rewrite Hc.
    assert (Hsplit := run_after Chars.upper s).
    destruct (after Chars.upper s) as [|d r] eqn:Hafter.
    { cbn [row_machine]. rewrite (upper_not_digit _ Hc), Hc. f_equal.
      rewrite (IH (length s)) by (simpl in Hn; lia || done).
      apply row_machine_no_digit. rewrite app_nil_r in Hsplit. rewrite <-Hsplit.
      intros c'. destruct (run Chars.upper s) as [|u x] eqn:Hrun; [done|].
      intros [= <-]. apply upper_not_digit.
      pose proof (all_run Chars.upper s) as Hall. rewrite Hrun in Hall.
      by inversion Hall. }
    destruct (Chars.digit d) eqn:Hd.
    + assert (Hrow := run_after Chars.digit r).
      set (col := c :: run Chars.upper s). set (row := d :: run Chars.digit r).
      assert (Hcol : all Chars.upper col) by (constructor; [done | apply all_run]).
      assert (Hrowd : all Chars.digit row) by (constructor; [done | apply all_run]).
      assert (Hs : c :: s = col ++ row ++ after Chars.digit r).
      { unfold col, row. simpl. by rewrite Hrow, Hsplit. }
      replace (concat [col; row]) with (col ++ row) by (simpl; by rewrite app_nil_r).
      unfold col at 1. cbn [app length].
      assert (Htail : s = (run Chars.upper s ++ row) ++ after Chars.digit r).
      { unfold row. rewrite <-app_assoc. simpl. by rewrite Hrow. }
      transitivity (generalize_repl [col; row] ++
        sub_scan generalize_pattern generalize_repl (length (run Chars.upper s ++ row))
          (Some c) ((run Chars.upper s ++ row) ++ after Chars.digit r)).
      { by rewrite <-Htail. }
      rewrite sub_scan_skip.
      rewrite (IH (length (after Chars.digit r))); [| |done].
      2:{ rewrite <-Hn, Hs, !length_app. unfold col. simpl. lia. }
      rewrite Hs. rewrite (row_machine_letters _ col) by done.
      unfold row at 2. cbn [app row_machine]. rewrite Hd.
      rewrite row_machine_digits by apply all_run.
      unfold generalize_repl, pieces_at. simpl. rewrite app_nil_r.
      rewrite <-!app_assoc. f_equal. unfold placeholder. simpl. do 6 f_equal.
      apply row_machine_no_digit. intros c'. apply after_head.
    + cbn [row_machine]. rewrite (upper_not_digit _ Hc), Hc. f_equal.
      rewrite (IH (length s)) by (simpl in Hn; lia || done).
      apply row_machine_no_digit. rewrite <-Hsplit.
      intros c'. destruct (run Chars.upper s) as [|u x] eqn:Hrun.
      * simpl. by intros [= <-].
      * intros [= <-]. apply upper_not_digit.
        pose proof (all_run Chars.upper s) as Hall. rewrite Hrun in Hall.
        by inversion Hall.
  - cbn [run]. rewrite Hc.
    rewrite (IH (length s)) by (simpl in Hn; lia || done).
    simpl. rewrite Hc. by destruct (Chars.digit c).
Qed.

Lemma generalize_is_scan formula : _generalize_formula formula = row_machine Outside formula.
Proof. by apply (generalize_scan (length formula)). Qed.

(** Reading the output of a scan again changes nothing. *)
Lemma row_machine_reread : forall s st,
  row_machine (reread st) (row_machine st s) = row_machine st s.
Proof.
  induction s as [|c s IH]; intros st; [by destruct st|].
  simpl. destruct (Chars.digit c) eqn:Hd.
  - destruct st; simpl.
    + rewrite Hd. f_equal. apply (IH Outside).
    + do 5 f_equal. apply (IH InRow).
    + apply (IH InRow).
  - assert (Hgo : forall st',
      row_machine st' (c :: row_machine (if Chars.upper c then AfterLetter else Outside) s)
      = c :: row_machine (if Chars.upper c then AfterLetter else Outside) s).
    { intros st'. simpl. rewrite Hd. f_equal.
      destruct (Chars.upper c); [apply (IH AfterLetter) | apply (IH Outside)]. }
    apply Hgo.
Qed.

End GeneralizeFacts.

(** ** The processing order *)

Module LevelFacts.

Import CrossSheet LevelSpec.

Lemma elem_of_set_add s x y : y ∈ set_add s x <-> y ∈ s \/ y = x.
Proof.
  unfold set_add. destruct (decide (x ∈ s)) as [Hin|Hin].
  - split; [auto | intros [?| ->]; done].
  - rewrite elem_of_app, list_elem_of_singleton. done.
Qed.

Lemma NoDup_set_add s x : NoDup s -> NoDup (set_add s x).
Proof.
  intros Hs. unfold set_add. destruct (decide (x ∈ s)) as [Hin|Hin]; [done|].
  apply NoDup_app. split; [done|]. split; [|apply NoDup_singleton].
  intros y Hy ->%list_elem_of_singleton. done.
Qed.

Lemma length_set_add s x : length s <= length (set_add s x).
Proof. unfold set_add. destruct (decide _); [done|]. rewrite length_app. lia. Qed.

Lemma length_set_add_new s x : x ∉ s -> length (set_add s x) = S (length s).
Proof.
  intros Hx. unfold set_add. destruct (decide _); [done|]. rewrite length_app. simpl. lia.
Qed.

Lemma elem_of_set_update xs : forall s y, y ∈ set_update s xs <-> y ∈ s \/ y ∈ xs.
Proof.
  induction xs as [|x xs IH]; intros s y; simpl.
  - rewrite elem_of_nil. tauto.
  - unfold set_update in *. simpl. rewrite IH, elem_of_set_add, elem_of_cons. tauto.
Qed.

Lemma NoDup_set_update xs : forall s, NoDup s -> NoDup (set_update s xs).
Proof.
  induction xs as [|x xs IH]; intros s Hs; [done|].
  unfold set_update in *. simpl. by apply IH, NoDup_set_add.
Qed.

Lemma length_set_update xs : forall s, length s <= length (set_update s xs).
Proof.
  induction xs as [|x xs IH]; intros s; [done|].
  unfold set_update in *. simpl. etrans; [apply (length_set_add s x) | apply IH].
Qed.

Lemma length_set_update_new s x xs : x ∉ s -> length s < length (set_update s (x :: xs)).
Proof.
  intros Hx. unfold set_update. simpl.
  pose proof (length_set_update xs (set_add s x)) as H. unfold set_update in H.
  rewrite length_set_add_new in H by done. lia.
Qed.

Lemma NoDup_collect_sheets dependencies : NoDup (collect_sheets dependencies).
Proof.
  unfold collect_sheets. generalize (NoDup_nil_2 (A:=str)). generalize (@nil str).
  induction dependencies as [|[key deps] d IH]; intros acc Hacc; simpl; [done|].
  by apply IH, NoDup_set_update, NoDup_set_add.
Qed.

Lemma elem_of_collect_sheets dependencies x :
  x ∈ collect_sheets dependencies <-> mentioned dependencies x.
Proof.
  unfold collect_sheets, mentioned.
  assert (H : forall acc,
    x ∈ foldl (fun all_sheets kv => set_update (set_add all_sheets kv.1) kv.2) acc dependencies
    <-> x ∈ acc \/ exists key deps, (key, deps) ∈ dependencies /\ (x = key \/ x ∈ deps)).
  { induction dependencies as [|[key deps] d IH]; intros acc; simpl.
    - split; [auto|]. intros [?|(? & ? & []%elem_of_nil & _)]; done.
    - rewrite IH, elem_of_set_update, elem_of_set_add. split.
      + intros [[[?|?]|?]|(k' & d' & Hin & Hx)]; eauto 7 using list_elem_of_here.
        right. exists k', d'. split; [by apply list_elem_of_further | done].
      + intros [?|(k' & d' & Hin & Hx)]; [tauto|].
        apply elem_of_cons in Hin as [[= -> ->]|Hin]; [tauto|].
        right. eauto. }
  rewrite H, elem_of_nil. tauto.
Qed.

Lemma partition_of_ext levels xs ys :
  (forall x, x ∈ xs <-> x ∈ ys) -> partition_of levels xs -> partition_of levels ys.
Proof.
  intros Heq (Hnd & Hmem & Huniq). split; [done|]. split; [|done].
  intros x. by rewrite <-Heq.
Qed.

Lemma partition_of_empty : partition_of ∅ [].
Proof.
  split; [|split].
  - intros k l. by rewrite lookup_empty.
  - intros x. split; [by intros ?%elem_of_nil|].
    intros (k & l & Hk & _). by rewrite lookup_empty in Hk.
  - intros k1 k2 l1 l2 x. by rewrite lookup_empty.
Qed.

(** A new level of fresh sheets keeps the split. *)
Lemma partition_of_insert levels processed cur new :
  partition_of levels processed ->
  (forall k l, levels !! k = Some l -> k < cur) ->
  NoDup new -> (forall x, x ∈ new -> x ∉ processed) ->
  partition_of (<[cur := new]> levels) (processed ++ new).
Proof.
  intros (Hnd & Hmem & Huniq) Hlt Hnew Hfresh.
  assert (Hcur : levels !! cur = None).
  { destruct (levels !! cur) as [l|] eqn:E; [|done]. apply Hlt in E. lia. }
  split; [|split].
  - intros k l. rewrite lookup_insert. case_decide; [by intros [= <-] | apply Hnd].
  - intros x. rewrite elem_of_app, Hmem. split.
    + intros [(k & l & Hk & Hx)|Hx].
      * exists k, l. split; [|done]. rewrite lookup_insert_ne; [done|]. intros <-. congruence.
      * exists cur, new. by rewrite lookup_insert_eq.
    + intros (k & l & Hk & Hx). rewrite lookup_insert in Hk. case_decide.
      * injection Hk as <-. by right.
      * left. eauto.
  - intros k1 k2 l1 l2 x. rewrite !lookup_insert.
    repeat case_decide; subst.
    + done.
    + intros [= <-] Hk2 Hx1 Hx2. exfalso. apply (Hfresh x Hx1). apply Hmem. eauto.
    + intros Hk1 [= <-] Hx1 Hx2. exfalso. apply (Hfresh x Hx2). apply Hmem. eauto.
    + apply Huniq.
Qed.

Lemma ready_sheets_fresh dependencies all_sheets processed x :
  x ∈ ready_sheets dependencies all_sheets processed -> x ∈ all_sheets /\ x ∉ processed.
Proof.
  unfold ready_sheets. rewrite list_elem_of_filter, list_elem_of_difference. tauto.
Qed.

Lemma NoDup_ready_sheets dependencies all_sheets processed :
  NoDup all_sheets -> NoDup (ready_sheets dependencies all_sheets processed).
Proof. intros H. by apply NoDup_filter, NoDup_list_difference. Qed.

Lemma order_loop_total dependencies all_sheets :
  NoDup all_sheets ->
  forall fuel levels processed cur,
    NoDup processed -> (forall x, x ∈ processed -> x ∈ all_sheets) ->
    (forall k l, levels !! k = Some l -> k < cur) ->
    partition_of levels processed ->
    length all_sheets - length processed < fuel ->
    exists levels',
      order_loop fuel dependencies all_sheets levels processed cur = Some levels' /\
      partition_of levels' all_sheets.
Proof.
  intros Hall. induction fuel as [|fuel IH]; intros levels processed cur Hnd Hsub Hlt Hpart Hfuel;
    [lia|].
  simpl. destruct (length processed <? length all_sheets) eqn:Hcmp.
  - apply Nat.ltb_lt in Hcmp.
    destruct (ready_sheets dependencies all_sheets processed) as [|x new] eqn:Hready.
    + eexists. split; [done|].
      eapply partition_of_ext; [|apply partition_of_insert; try done].
      * intros y. rewrite elem_of_app, list_elem_of_difference.
        split; [intros [?|[? _]]; auto|].
        intros Hy. destruct (decide (y ∈ processed)); auto.
      * by apply NoDup_list_difference.
      * intros y. rewrite list_elem_of_difference. tauto.
    + assert (Hfresh : forall y, y ∈ x :: new -> y ∈ all_sheets /\ y ∉ processed).
      { intros y Hy. rewrite <-Hready in Hy. by apply ready_sheets_fresh in Hy. }
      assert (Hndnew : NoDup (x :: new)).
      { rewrite <-Hready. by apply NoDup_ready_sheets. }
      apply IH.
      * by apply NoDup_set_update.
      * intros y [?|?]%elem_of_set_update; [auto | by apply Hfresh].
      * intros k l. rewrite lookup_insert. case_decide; [intros _; lia|].
        intros Hk. apply Hlt in Hk. lia.
      * eapply partition_of_ext; [|apply partition_of_insert; try done].
        -- intros y. by rewrite elem_of_app, elem_of_set_update.
        -- intros y Hy. by apply Hfresh.
      * assert (length processed < length (set_update processed (x :: new))).
        { apply length_set_update_new. apply Hfresh. left. }
        lia.
  - apply Nat.ltb_ge in Hcmp. eexists. split; [done|].
    eapply partition_of_ext; [|exact Hpart].
    intros y. apply elem_of_Permutation_proper.
    apply submseteq_length_Permutation; [|done].
    by apply NoDup_submseteq.
Qed.

Lemma calculate_processing_order_total dependencies :
  exists levels,
    _calculate_processing_order dependencies = Some levels /\
    partition_of levels (collect_sheets dependencies).
Proof.
  unfold _calculate_processing_order.
  pose proof (NoDup_collect_sheets dependencies) as Hall.
  set (all_sheets := collect_sheets dependencies) in *.
  destruct (list_difference all_sheets dependencies.*1) as [|x level_0] eqn:Hl0.
  - apply order_loop_total; [done|..].
    + constructor.
    + by intros y ?%elem_of_nil.
    + intros k l. by rewrite lookup_empty.
    + apply partition_of_empty.
    + simpl. lia.
  - assert (Hnd0 : NoDup (x :: level_0)).
    { rewrite <-Hl0. by apply NoDup_list_difference. }
    apply order_loop_total; [done|..].
    + apply NoDup_set_update. constructor.
    + intros y [[]%elem_of_nil|Hy]%elem_of_set_update. rewrite <-Hl0 in Hy.
      by apply list_elem_of_difference in Hy as [? _].
    + intros k l [<- _]%lookup_singleton_Some. lia.
    + rewrite <-insert_empty. eapply partition_of_ext;
        [|apply (partition_of_insert ∅ [] 0 (x :: level_0) partition_of_empty)].
      * intros y. rewrite elem_of_set_update, elem_of_nil. simpl. tauto.
      * intros k l. by rewrite lookup_empty.
      * done.
      * intros y _. apply not_elem_of_nil.
    + lia.
Qed.

End LevelFacts.

(** ** The two loops of the multi-sheet translator *)

Module MultiSheetFacts.

Import ReSpec ReFacts TranslateSpec TranslateFacts GeneralizeSpec GeneralizeFacts MultiSheetSpec.










(** *** Every whole-word token is a match *)









End MultiSheetFacts.

(** ** Translation and generalization: the claims *)

Import ReSpec TranslateSpec GeneralizeSpec MultiSheetSpec.



(** C6, at the input where the program departs from it.
    [_generalize_formula] puts the placeholder [{row}] for the row number of
    [A2] and of [$A2], and generalizing twice gives what generalizing once
    gives; but the row number of a reference with an absolute row, [A$2] or
    [$A$2], is left in the pattern, so that [=A$2+B$2] and [=A$57+B$57],
    which differ only in their row numbers, generalize to different
    patterns. *)
Theorem generalize_keeps_absolute_rows :
  _generalize_formula "=A2+B2" = "=A{row}+B{row}" /\
  _generalize_formula "=SALARIO2+BONUS2" = "=SALARIO{row}+BONUS{row}" /\
  _generalize_formula "=SALARIO57+BONUS57" = "=SALARIO{row}+BONUS{row}" /\
  _generalize_formula "=$A2+$B2" = "=$A{row}+$B{row}" /\
  _generalize_formula "=A$2+B$2" = "=A$2+B$2" /\
  _generalize_formula "=A$57+B$57" = "=A$57+B$57" /\
  _generalize_formula "=$A$2+$B$2" = "=$A$2+$B$2" /\
  _generalize_formula "=A$2+B$2" <> _generalize_formula "=A$57+B$57" /\
  (forall formula : str,
     _generalize_formula (_generalize_formula formula) = _generalize_formula formula).
Proof.
  do 8 (split; [by vm_compute|]).
  intros formula. rewrite !GeneralizeFacts.generalize_is_scan.
  apply (GeneralizeFacts.row_machine_reread formula Outside).
Qed.

(** C4, at the input where the program departs from it.  The translation map
    that auto-discovery builds for column [A] with header [SALARIO] gives the
    same name to [A], [$A], [A$] and [$A$]; yet of the four spellings of the
    reference only [A1] and [$A1] are translated (the second keeps its [$]),
    while [A$1] and [$A$1] are returned untranslated, by both translators. *)
Theorem absolute_variants_translation :
  let header_traducao := register_mixed_ref ∅ "A" "SALARIO" in
  Forall (fun key : string => header_traducao !! (key : str) = Some ("SALARIO" : str))
    ["A"; "$A"; "A$"; "$A$"]%string /\
  _translate_formula "=A1" header_traducao = "=SALARIO" /\
  _translate_formula "=$A1" header_traducao = "=$SALARIO" /\
  _translate_formula "=A$1" header_traducao = "=A$1" /\
  _translate_formula "=$A$1" header_traducao = "=$A$1" /\
  _translate_formula_multi_sheet "=A1" header_traducao = "=SALARIO" /\
  _translate_formula_multi_sheet "=$A1" header_traducao = "=$SALARIO" /\
  _translate_formula_multi_sheet "=A$1" header_traducao = "=A$1" /\
  _translate_formula_multi_sheet "=$A$1" header_traducao = "=$A$1".
Proof.
  split; [|by vm_compute].
  repeat constructor; by vm_compute.
Qed.

(** ** Sheets: the claims *)

Import CrossSheet LevelSpec.

(** C3. For every dependency map, cyclic ones included,
    [_calculate_processing_order] returns (the fuel of the loop, one more
    than the number of sheets, is never used up), and in the levels it
    returns every sheet the map mentions, as a key or as a dependency, stands
    in exactly one level and once in it; the levels hold no other sheet.
    When a pass can assign no sheet, all remaining sheets go together into
    the next level: the sheets of the cycle A, B, C form one level, after
    the levels of the sheets outside the cycle. *)
Theorem processing_order_total :
  (forall dependencies : deps_map, exists levels,
     _calculate_processing_order dependencies = Some levels /\
     (forall sheet, mentioned dependencies sheet ->
        exists k l, levels !! k = Some l /\ sheet ∈ l /\ NoDup l /\
          forall k' l', levels !! k' = Some l' -> sheet ∈ l' -> k' = k) /\
     (forall k l sheet, levels !! k = Some l -> sheet ∈ l -> mentioned dependencies sheet)) /\
  (forall fuel dependencies all_sheets levels processed current_level,
     length processed < length all_sheets ->
     ready_sheets dependencies all_sheets processed = [] ->
     order_loop (S fuel) dependencies all_sheets levels processed current_level
     = Some (<[current_level := list_difference all_sheets processed]> levels)) /\
  _calculate_processing_order (deps_of [("A", ["B"]); ("B", ["C"]); ("C", ["A"])])
  = Some {[0 := strs ["A"; "B"; "C"]]} /\
  _calculate_processing_order
    (deps_of [("A", ["B"]); ("B", ["C"]); ("C", ["A"]); ("E", ["D"])])
  = Some (<[2 := strs ["A"; "B"; "C"]]> (<[1 := strs ["E"]]> {[0 := strs ["D"]]})).
Proof.
  split; [|split; [|by vm_compute]].
  - intros dependencies.
    destruct (LevelFacts.calculate_processing_order_total dependencies)
      as (levels & Hrun & Hnd & Hmem & Huniq).
    exists levels. split; [done|]. split.
    + intros sheet Hsheet. apply LevelFacts.elem_of_collect_sheets, Hmem in Hsheet.
      destruct Hsheet as (k & l & Hk & Hl). exists k, l. repeat split; eauto.
    + intros k l sheet Hk Hl. apply LevelFacts.elem_of_collect_sheets, Hmem. eauto.
  - intros fuel dependencies all_sheets levels processed current_level Hlt Hready.
    simpl. apply Nat.ltb_lt in Hlt. by rewrite Hlt, Hready.
Qed.

(** C2, at the input where the program departs from it.  For the three
    sheets A, B, C that reference each other in a circle (the map keyed by
    either end of the references), the search started at the first key does
    reach the cycle: it leaves all three sheets on [path], but the list found
    in the innermost call comes back as [True]; so
    [_detect_circular_dependencies] returns the empty list and
    [suggest_optimizations] reports no circular dependency. *)
Theorem detect_circular_three_sheets :
  Forall (fun dependencies : deps_map =>
    (exists st first,
       head dependencies.*1 = Some first /\
       has_cycle (dfs_fuel dependencies) dependencies first (DfsState ∅ ∅ []) = Done PTrue st /\
       length (path st) = 3) /\
    _detect_circular_dependencies dependencies = Returned [] /\
    suggest_optimizations dependencies [] = Some [])
  [deps_of [("A", ["B"]); ("B", ["C"]); ("C", ["A"])];
   deps_of [("B", ["A"]); ("C", ["B"]); ("A", ["C"])]].
Proof.
  repeat constructor; try (by vm_compute).
  - eexists _, _. split; [reflexivity|]. split; [by vm_compute|]. by vm_compute.
  - eexists _, _. split; [reflexivity|]. split; [by vm_compute|]. by vm_compute.
Qed.

(** C9. Every cross reference extracted from a formula on a sheet has that
    sheet as its source and a different sheet as its target. *)
Theorem cross_references_exclude_own_sheet :
  forall formula current_sheet : str,
    Forall (fun ref => target_sheet ref <> current_sheet /\ source_sheet ref = current_sheet)
      (_extract_cross_references formula current_sheet).
Proof.
  intros formula current_sheet. apply Forall_forall. intros ref.
  unfold _extract_cross_references. rewrite list_elem_of_In, in_flat_map.
  intros ([name pattern] & _ & Href). apply list_elem_of_In, list_elem_of_omap in Href.
  destruct Href as (match_ & _ & Href).
  destruct (target_of match_) as [[target target_ref]|]; [|discriminate].
  destruct (decide (target <> current_sheet)); [|discriminate].
  by injection Href as <-.
Qed.

(** ** The impact cascade *)

Module ImpactFacts.

Import Impact.

Lemma add_impact_spec cadeia col_ref col_formula x y :
  y ∈ impact_set (add_impact cadeia col_ref col_formula) x
  <-> y ∈ impact_set cadeia x \/ (x = col_ref /\ y = col_formula).
Proof.
  unfold impact_set, add_impact. rewrite lookup_insert. case_decide as Hx; simpl.
  - subst. rewrite elem_of_union, elem_of_singleton. intuition congruence.
  - intuition congruence.
Qed.

Lemma add_impacts_spec col_formula x y : forall refs cadeia,
  y ∈ impact_set (foldl (fun c col_ref => add_impact c col_ref col_formula) cadeia refs) x
  <-> y ∈ impact_set cadeia x \/ (x ∈ refs /\ y = col_formula).
Proof.
  induction refs as [|r refs IH]; intros cadeia; simpl.
  - rewrite elem_of_nil. tauto.
  - rewrite IH, add_impact_spec, elem_of_cons. intuition congruence.
Qed.

Lemma cadeia_spec formulas x y :
  y ∈ impact_set (analisar_cadeia_impacto formulas) x <-> consumes formulas x y.
Proof.
  unfold analisar_cadeia_impacto, consumes.
  assert (H : forall acc,
    y ∈ impact_set (foldl (fun cadeia_impacto entry =>
           match get_mapeamento entry.2 with
           | MapDict items =>
               foldl (fun cadeia col_ref => add_impact cadeia col_ref entry.1)
                 cadeia_impacto items.*2
           | NotADict => cadeia_impacto
           end) acc formulas) x
    <-> y ∈ impact_set acc x \/
        exists info items, (y, info) ∈ formulas /\
          get_mapeamento info = MapDict items /\ x ∈ items.*2).
  { induction formulas as [|[key info] formulas IH]; intros acc; simpl.
    - split; [auto|]. intros [?|(? & ? & []%elem_of_nil & _)]; done.
    - rewrite IH. destruct (get_mapeamento info) as [items|] eqn:Hmap.
      + rewrite add_impacts_spec. split.
        * intros [[?|[? ->]]|(info' & items' & Hin & ? & ?)]; [by left|..].
          -- right. exists info, items. split; [left|done].
          -- right. exists info', items'. split; [by right|done].
        * intros [?|(info' & items' & Hin & Hm & Hx)]; [tauto|].
          apply elem_of_cons in Hin as [[= -> ->]|Hin].
          -- rewrite Hmap in Hm. injection Hm as <-. tauto.
          -- right. eauto.
      + split.
        * intros [?|(info' & items' & Hin & ? & ?)]; [by left|].
          right. exists info', items'. split; [by right|done].
        * intros [?|(info' & items' & Hin & Hm & Hx)]; [tauto|].
          apply elem_of_cons in Hin as [[= -> ->]|Hin]; [congruence|].
          right. eauto. }
  rewrite H. unfold impact_set. rewrite lookup_empty. simpl. rewrite elem_of_empty. tauto.
Qed.

Lemma cascade_spec cadeia x y :
  (exists c, impacto_cascata cadeia !! x = Some c /\
     (y ∈ columns c \/ y ∈ formulas_afetadas c))
  <-> y ∈ impact_set cadeia x.
Proof.
  unfold impacto_cascata, impact_set. rewrite lookup_omap.
  destruct (cadeia !! x) as [cols|]; simpl.
  - unfold cascade_of. destruct (decide (cols <> ∅)) as [Hne|He]; simpl.
    + split.
      * intros (c & [= <-] & Hy). simpl in Hy.
        rewrite !list_elem_of_filter, !elem_of_elements in Hy. tauto.
      * intros Hy. eexists. split; [done|]. simpl.
        rewrite !list_elem_of_filter, !elem_of_elements.
        destruct (decide (has_dot y)); tauto.
    + apply dec_stable in He. subst. split; [by intros (c & ? & _)|]. by intros ?%elem_of_empty.
  - split; [by intros (c & ? & _)|]. by intros ?%elem_of_empty.
Qed.

End ImpactFacts.

(** ** Impact: the claims *)

Import Impact.

(** C1 as stated fails: with a formula [TOTAL] that reads column [SALARIO]
    and a formula [LIQUIDO] that reads column [TOTAL], [LIQUIDO] is reachable
    from [SALARIO] by two reverse-dependency hops, yet the impact set of
    [SALARIO], and the cascade entry built from it, hold [TOTAL] only. *)
Lemma impact_chain_is_one_hop :
  let formulas := [("TOTAL" : str, formula_with [("A", "SALARIO")]);
                   ("LIQUIDO" : str, formula_with [("B", "TOTAL")])] in
  reaches formulas "SALARIO" "LIQUIDO" /\
  impact_set (analisar_cadeia_impacto formulas) "SALARIO" = {[list_ascii_of_string "TOTAL"]} /\
  (list_ascii_of_string "LIQUIDO" ∉ impact_set (analisar_cadeia_impacto formulas) "SALARIO") /\
  impacto_cascata (analisar_cadeia_impacto formulas) !! ("SALARIO" : str)
  = Some (Cascade (strs ["TOTAL"]) [] "Ver detalhes").
Proof.
  intros formulas.
  assert (Hset : impact_set (analisar_cadeia_impacto formulas) "SALARIO" = {[list_ascii_of_string "TOTAL"]})
    by (by vm_compute).
  split; [|split; [done|split]].
  - eapply tc_l; [|apply tc_once].
    + exists (formula_with [("A", "SALARIO")]), [("A" : str, "SALARIO" : str)].
      split; [left|]. split; [done|]. left.
    + exists (formula_with [("B", "TOTAL")]), [("B" : str, "TOTAL" : str)].
      split; [right; left|]. split; [done|]. left.
  - rewrite Hset. by intros [=]%elem_of_singleton.
  - by vm_compute.
Qed.

(** C1, amended.  The impact map assigns to each origin column exactly the
    formulas that consume it directly, those whose mapping names the column:
    one reverse-dependency hop.  The cascade entry of an origin lists the
    same items, split into columns and formulas. *)
Theorem impact_chain_direct_consumers :
  forall (formulas : list (str * formula_info)) (col item : str),
    (item ∈ impact_set (analisar_cadeia_impacto formulas) col <-> consumes formulas col item) /\
    ((exists c, impacto_cascata (analisar_cadeia_impacto formulas) !! col = Some c /\
        (item ∈ columns c \/ item ∈ formulas_afetadas c))
     <-> consumes formulas col item).
Proof.
  intros formulas col item. split; [apply ImpactFacts.cadeia_spec|].
  by rewrite ImpactFacts.cascade_spec, ImpactFacts.cadeia_spec.
Qed.

(** C8. The level of a cascade row is fixed by the number of affected
    columns plus the number of affected formulas: at most 2 gives MODERADO,
    3 to 5 gives ALTO, more than 5 gives CRITICO. *)
Theorem impact_level_thresholds :
  forall impactos : cascade,
    let total := length (columns impactos) + length (formulas_afetadas impactos) in
    (total <= 2 -> nivel_de_impacto impactos = MODERADO) /\
    (3 <= total <= 5 -> nivel_de_impacto impactos = ALTO) /\
    (5 < total -> nivel_de_impacto impactos = CRITICO).
Proof.
  intros impactos total. unfold nivel_de_impacto, impact_level. fold total.
  destruct (5 <? total) eqn:H5; destruct (2 <? total) eqn:H2;
    rewrite ?Nat.ltb_lt, ?Nat.ltb_ge in *; repeat split; intros; (done || lia).
Qed.

(** ** Duplicate keys *)

Module DictFacts.

Lemma get_set {V} (d : list (str * V)) k v k' :
  Dict.get (Dict.set d k v) k' = if decide (k = k') then Some v else Dict.get d k'.
Proof.
  induction d as [|[k0 v0] d IH]; simpl.
  - done.
  - destruct (decide (k0 = k)) as [->|Hne]; simpl.
    + by destruct (decide (k = k')).
    + rewrite IH. destruct (decide (k0 = k')) as [->|?]; [|done].
      by destruct (decide (k = k')) as [<-|?].
Qed.

Lemma last_assigned_snoc {V} (items : list (str * V)) k v key :
  Dict.last_assigned (items ++ [(k, v)]) key
  = if decide (k = key) then Some v else Dict.last_assigned items key.
Proof.
  unfold Dict.last_assigned. rewrite filter_app, filter_cons, filter_nil. simpl.
  destruct (decide (k = key)); [by rewrite last_snoc | by rewrite app_nil_r].
Qed.

Lemma last_assigned_app {V} (xs ys : list (str * V)) key :
  Dict.last_assigned (xs ++ ys) key
  = match Dict.last_assigned ys key with
    | Some v => Some v
    | None => Dict.last_assigned xs key
    end.
Proof.
  unfold Dict.last_assigned. rewrite filter_app.
  destruct (filter _ ys) as [|y ys'] using rev_ind; simpl.
  - by rewrite app_nil_r.
  - by rewrite app_assoc, !last_snoc.
Qed.

(** Reading a key after a run of assignments gives the last value assigned
    to it, or what the dict held when the run has none. *)
Lemma get_assign_all {V} (items : list (str * V)) : forall d key,
  Dict.get (Dict.assign_all d items) key
  = match Dict.last_assigned items key with
    | Some v => Some v
    | None => Dict.get d key
    end.
Proof.
  induction items as [|[k v] items IH] using rev_ind; intros d key; [done|].
  unfold Dict.assign_all in *. rewrite foldl_app. simpl.
  rewrite get_set, last_assigned_snoc, IH.
  by destruct (decide (k = key)).
Qed.

Lemma assign_all_app {V} (d : list (str * V)) xs ys :
  Dict.assign_all d (xs ++ ys) = Dict.assign_all (Dict.assign_all d xs) ys.
Proof. unfold Dict.assign_all. by rewrite foldl_app. Qed.

Lemma keys_set {V} (d : list (str * V)) k v x :
  x ∈ (Dict.set d k v).*1 <-> x ∈ d.*1 \/ x = k.
Proof.
  induction d as [|[k0 v0] d IH]; simpl.
  - rewrite list_elem_of_singleton, elem_of_nil. tauto.
  - destruct (decide (k0 = k)) as [->|Hne]; simpl; rewrite !elem_of_cons, ?IH; tauto.
Qed.

Lemma NoDup_set {V} (d : list (str * V)) k v :
  NoDup d.*1 -> NoDup (Dict.set d k v).*1.
Proof.
  induction d as [|[k0 v0] d IH]; simpl; intros Hnd.
  - apply NoDup_singleton.
  - apply NoDup_cons in Hnd as [Hk0 Hnd].
    destruct (decide (k0 = k)) as [->|Hne]; simpl; apply NoDup_cons.
    + done.
    + split; [|by apply IH]. rewrite keys_set. tauto.
Qed.

Lemma NoDup_assign_all {V} (items : list (str * V)) : forall d,
  NoDup d.*1 -> NoDup (Dict.assign_all d items).*1.
Proof.
  induction items as [|[k v] items IH]; intros d Hd; [done|].
  unfold Dict.assign_all in *. simpl. by apply IH, NoDup_set.
Qed.

(** In a dict, whose keys are distinct, the last pair with a key is the
    only one. *)
Lemma last_assigned_get {V} (d : list (str * V)) key :
  NoDup d.*1 -> Dict.last_assigned d key = Dict.get d key.
Proof.
  induction d as [|[k v] d IHd]; [done|]. simpl.
  intros [Hk Hnd]%NoDup_cons. specialize (IHd Hnd).
  unfold Dict.last_assigned in *. rewrite filter_cons. simpl.
  destruct (decide (k = key)) as [->|?]; [|done].
  assert (Hnone : filter (fun kv : str * V => kv.1 = key) d = []).
  { destruct (filter _ d) as [|[k' v'] rest] eqn:Hf; [done|]. exfalso.
    assert (Hin : (k', v') ∈ filter (fun kv : str * V => kv.1 = key) d)
      by (rewrite Hf; left).
    apply list_elem_of_filter in Hin as [Heq Hin]. simpl in Heq. subst.
    apply Hk. apply list_elem_of_fmap. by exists (key, v'). }
  by rewrite Hnone.
Qed.

(** The loop that assigns in some turns only. *)
Lemma foldl_assign {V X} (f : X -> option (str * V)) (l : list X) : forall d,
  foldl (fun d x => match f x with
                    | Some (k, v) => Dict.set d k v
                    | None => d
                    end) d l
  = Dict.assign_all d (omap f l).
Proof.
  induction l as [|x l IH]; intros d; [done|].
  simpl. rewrite IH. by destruct (f x) as [[k v]|].
Qed.

Lemma get_map_value {V W} (g : str -> V -> W) (d : list (str * V)) key :
  Dict.get (map (fun entry => (entry.1, g entry.1 entry.2)) d) key = g key <$> Dict.get d key.
Proof.
  induction d as [|[k v] d IH]; simpl; [done|].
  by destruct (decide (k = key)) as [->|?].
Qed.

Lemma keys_map_value {V W} (g : str -> V -> W) (d : list (str * V)) :
  (map (fun entry => (entry.1, g entry.1 entry.2)) d).*1 = d.*1.
Proof. induction d as [|[k v] d IH]; [done|]. cbn. f_equal. exact IH. Qed.

End DictFacts.

Module DuplicateFacts.

Import Workbook DictFacts.

Section Discover.

Context {analysis : Type}.
Variable analyze : str -> list (str * list (option str)) -> str -> analysis.

Lemma discover_formulas_assign wb ws n :
  Discovery.discover_formulas analyze wb ws n
  = Dict.assign_all []
      (omap (fun col => Discovery.discover_column analyze wb ws (S col.1) col.2)
         (imap pair (take n (cells ws)))).
Proof. unfold Discovery.discover_formulas. by rewrite <-foldl_assign. Qed.

Lemma get_discover_sheets wb key : forall sheets all_formulas,
  Dict.get (foldl (fun all_formulas ws =>
              Dict.update all_formulas (Discovery.discover_formulas analyze wb ws 300))
            all_formulas sheets) key
  = match Dict.last_assigned
            (flat_map (fun ws =>
               omap (fun col => Discovery.discover_column analyze wb ws (S col.1) col.2)
                 (imap pair (take 300 (cells ws)))) sheets) key with
    | Some v => Some v
    | None => Dict.get all_formulas key
    end.
Proof.
  induction sheets as [|ws sheets IH]; intros all_formulas; [done|].
  simpl. rewrite IH, last_assigned_app.
  destruct (Dict.last_assigned (flat_map _ sheets) key); [done|].
  unfold Dict.update. rewrite get_assign_all.
  rewrite discover_formulas_assign.
  set (E := omap _ _).
  assert (Hlast : Dict.last_assigned (Dict.assign_all [] E) key = Dict.last_assigned E key).
  { pose proof (NoDup_assign_all E [] (NoDup_nil_2 (A:=str))) as Hnd.
    pose proof (get_assign_all E [] key) as Hget. simpl in Hget.
    rewrite (last_assigned_get _ _ Hnd), Hget. by destruct (Dict.last_assigned E key). }
  by rewrite Hlast.
Qed.

Lemma NoDup_discover_sheets wb : forall sheets all_formulas,
  NoDup all_formulas.*1 ->
  NoDup (foldl (fun all_formulas ws =>
           Dict.update all_formulas (Discovery.discover_formulas analyze wb ws 300))
         all_formulas sheets).*1.
Proof.
  induction sheets as [|ws sheets IH]; intros all_formulas Hnd; [done|].
  simpl. by apply IH, NoDup_assign_all.
Qed.

End Discover.

Lemma extract_loop_assign config wb :
  Extraction.extract_loop config wb = Dict.assign_all [] (Extraction.extractions config wb).
Proof.
  unfold Extraction.extract_loop, Extraction.extractions.
  generalize (bool_decide (1 < length config)). intros several.
  generalize (@nil (str * Extraction.extracted)).
  induction config as [|aba config IH]; intros d; [done|].
  simpl. by rewrite IH, assign_all_app.
Qed.

End DuplicateFacts.

(** ** Duplicate keys: the claim *)

Import Workbook.

(** C5 as stated fails: the overwrite leaves no trace.  A sheet with two
    columns headed [TOTAL], both holding a formula, is discovered to the same
    dict as the sheet whose first [TOTAL] column holds no formula; and a
    configuration with two mappings for the result header [TOTAL] is
    extracted to the same dict as the configuration with the second mapping
    only.  In both cases two formulas claim one key, and what the caller gets
    is what it gets when the earlier formula does not exist. *)
Lemma duplicate_key_overwrite_is_silent :
  let key : str := "Folha.TOTAL" in
  let dup := [worksheet_of "Folha" [(Some "TOTAL", Some "=A2"); (Some "TOTAL", Some "=B2")]] in
  let one := [worksheet_of "Folha" [(Some "TOTAL", None); (Some "TOTAL", Some "=B2")]] in
  let wb := [worksheet_of "Folha" [(Some "SALARIO", None); (Some "TOTAL", Some "=A2*2")]] in
  let first := Extraction.Mapping "TOTAL" (py_dict [("A", "SALARIO")]) in
  let second := Extraction.Mapping "TOTAL" (py_dict [("A", "BASE")]) in
  (forall (analysis : Type) (analyze : str -> list (str * list (option str)) -> str -> analysis),
     length (filter (fun kv => kv.1 = key) (Discovery.discoveries analyze dup)) = 2 /\
     Discovery.discover_all_sheets analyze dup = Discovery.discover_all_sheets analyze one) /\
  length (filter (fun kv => kv.1 = ("TOTAL" : str))
            (Extraction.extractions [("Folha" : str, Some [first; second])] wb)) = 2 /\
  Extraction._extract_multi_sheet [("Folha" : str, Some [first; second])] wb
  = Extraction._extract_multi_sheet [("Folha" : str, Some [second])] wb /\
  Extraction.formula_traduzida
    <$> Dict.get (Extraction._extract_multi_sheet [("Folha" : str, Some [first; second])] wb)
          "TOTAL"
  = Some ("=BASE*2" : str).
Proof.
  intros key dup one wb first second. split; [|split; [|split]].
  - intros analysis analyze. split; reflexivity.
  - by vm_compute.
  - by vm_compute.
  - by vm_compute.
Qed.

(** C5, amended.  When several discovered formulas claim one key, the dict
    returned holds under that key the record of the last one (last write
    wins) and a key occurs in it once; nothing else is returned, so the
    earlier formulas are dropped without a report.  This holds of
    [discover_all_sheets] and, up to the ['depends_on'] every record gets at
    the end, of [_extract_multi_sheet]. *)
Theorem duplicate_key_last_write_wins :
  (forall (analysis : Type) (analyze : str -> list (str * list (option str)) -> str -> analysis)
          (wb : workbook) (key : str),
     Dict.get (Discovery.discover_all_sheets analyze wb) key
     = Dict.last_assigned (Discovery.discoveries analyze wb) key /\
     NoDup (Discovery.discover_all_sheets analyze wb).*1) /\
  (forall (config : Extraction.abas_config) (wb : workbook) (key : str),
     Dict.get (Extraction._extract_multi_sheet config wb) key
     = Extraction.with_depends_on (Extraction.extract_loop config wb) key
         <$> Dict.last_assigned (Extraction.extractions config wb) key /\
     NoDup (Extraction._extract_multi_sheet config wb).*1).
Proof.
  split.
  - intros analysis analyze wb key. split.
    + unfold Discovery.discover_all_sheets, Discovery.discoveries.
      rewrite DuplicateFacts.get_discover_sheets. by destruct (Dict.last_assigned _ _).
    + apply DuplicateFacts.NoDup_discover_sheets. constructor.
  - intros config wb key. unfold Extraction._extract_multi_sheet,
      Extraction._analyze_formula_dependencies. split.
    + rewrite DictFacts.get_map_value, DuplicateFacts.extract_loop_assign,
        DictFacts.get_assign_all.
      by destruct (Dict.last_assigned _ _).
    + rewrite DictFacts.keys_map_value, DuplicateFacts.extract_loop_assign.
      apply DictFacts.NoDup_assign_all. constructor.
Qed.

(** ** The enriched results *)

Module ReportFacts.

Import Report.

Lemma validation_result_coluna resultado :
  validation_result resultado -> is_Some (resultado !! list_ascii_of_string "coluna").
Proof.
  intros [H _]. rewrite Forall_forall in H. apply H.
  unfold validator_fields, strs. simpl. right. left.
Qed.

Lemma validation_result_fresh_field resultado :
  validation_result resultado -> resultado !! divergencias_na_formula = None.
Proof. by intros [_ H]. Qed.

Lemma resultado_key_some resultado :
  validation_result resultado -> is_Some (resultado_key resultado).
Proof.
  intros [coluna Hc]%validation_result_coluna. unfold resultado_key. rewrite Hc. by eexists.
Qed.

Lemma enriched_insert (impacto : gmap str str) (inp : object) (key : str) :
  validation_result inp -> resultado_key inp = Some key ->
  enriched impacto inp
    (<[divergencias_na_formula := VStr (default [] (impacto !! key))]> inp).
Proof.
  intros Hfresh%validation_result_fresh_field Hkey. exists key.
  split; [done|]. split; [done|]. split; [apply lookup_insert_eq|].
  split; [rewrite dom_insert_L; apply union_comm_L|].
  split; [by apply map_size_insert_None|].
  intros field Hne. by rewrite lookup_insert_ne.
Qed.

Lemma gerar_loop_spec (impacto : gmap str str) (h0 : store) :
  forall (results : list ref) (h : store) (acc : list ref),
  (forall r o, h0 !! r = Some o -> h !! r = Some o) ->
  Forall (fun r => exists o, h0 !! r = Some o /\ validation_result o) results ->
  exists h' out,
    gerar_loop impacto h results acc = Some (h', acc ++ out) /\
    (forall r o, h !! r = Some o -> h' !! r = Some o) /\
    Forall (fun r' => h !! r' = None) out /\
    NoDup out /\
    Forall2 (fun r r' => exists inp o,
               h0 !! r = Some inp /\ h' !! r' = Some o /\ enriched impacto inp o)
      results out.
Proof.
  induction results as [|r rest IH]; intros h acc Hsub Hall.
  { exists h, []. simpl. rewrite app_nil_r. repeat split; (done || constructor). }
  apply Forall_cons in Hall as [(inp & Hinp & Hvalid) Hall].
  destruct (resultado_key_some inp Hvalid) as [key Hkey].
  simpl. rewrite (Hsub _ _ Hinp). simpl. rewrite Hkey. simpl.
  set (new := fresh (dom h)).
  assert (Hnew : h !! new = None) by (apply not_elem_of_dom, is_fresh).
  set (o := <[divergencias_na_formula := VStr (default [] (impacto !! key))]> inp).
  assert (Hh2 : setitem (<[new := inp]> h) new divergencias_na_formula
                  (VStr (default [] (impacto !! key))) = <[new := o]> h).
  { unfold setitem. by rewrite alter_insert_eq. }
  rewrite Hh2.
  assert (Hgrow : forall r0 o0, h !! r0 = Some o0 -> <[new := o]> h !! r0 = Some o0).
  { intros r0 o0 Hr0. rewrite lookup_insert_ne; [done|]. intros <-. congruence. }
  destruct (IH (<[new := o]> h) (acc ++ [new])) as (h' & out & Hrun & Hmono & Hfresh & Hnd & Hpairs).
  { intros r0 o0 Hr0. by apply Hgrow, Hsub. }
  { done. }
  exists h', (new :: out). split; [by rewrite Hrun, <-app_assoc|].
  split; [intros r0 o0 Hr0; by apply Hmono, Hgrow|].
  split; [|split].
  - constructor; [done|]. eapply Forall_impl; [exact Hfresh|].
    intros r' Hr'. simpl in Hr'. destruct (h !! r') as [o'|] eqn:E; [|done].
    apply Hgrow in E. congruence.
  - constructor; [|done]. intros Hin.
    rewrite Forall_forall in Hfresh. specialize (Hfresh _ Hin). simpl in Hfresh.
    by rewrite lookup_insert_eq in Hfresh.
  - constructor; [|done]. exists inp, o. split; [done|]. split.
    + apply Hmono. apply lookup_insert_eq.
    + by apply enriched_insert.
Qed.

End ReportFacts.

(** ** The enriched results: the claim *)

Import Report.

(** C10. Given validation results as [Validator.validate] builds them, held
    in the store at the references of the input list,
    [gerar_relatorio_impacto] returns; its output list has the length and the
    order of the input list; every object that was in the store, the input
    records among them, is unchanged; the outputs are new objects, distinct
    from each other; and the i-th output is the i-th input with the one field
    ['divergencias_na_formula'] added and every other field unchanged. *)
Theorem gerar_relatorio_preserves_results :
  forall (impacto_por_resultado : gmap str str) (h : store) (validation_results : list ref),
    Forall (fun r => exists resultado, h !! r = Some resultado /\ validation_result resultado)
      validation_results ->
    exists h' out,
      gerar_relatorio_impacto impacto_por_resultado h validation_results = Some (h', out) /\
      length out = length validation_results /\
      (forall r resultado, h !! r = Some resultado -> h' !! r = Some resultado) /\
      Forall (fun r' => h !! r' = None) out /\
      NoDup out /\
      Forall2 (fun r r' => exists inp o,
                 h !! r = Some inp /\ h' !! r' = Some o /\ enriched impacto_por_resultado inp o)
        validation_results out.
Proof.
  intros impacto h results Hall.
  destruct (ReportFacts.gerar_loop_spec impacto h results h []) as
    (h' & out & Hrun & Hmono & Hfresh & Hnd & Hpairs); [done..|].
  exists h', out. split; [done|]. split; [|done].
  symmetry. by eapply Forall2_length.
Qed.

(** Two results for the column [TOTAL], the first with a message. *)
Lemma gerar_relatorio_preserves_results_witness :
  let first := object_of
    [("linha_idx", VInt 0); ("coluna", VStr "TOTAL"); ("valor_arquivo_1", VFloat "10.0");
     ("valor_arquivo_2", VFloat "12.5"); ("resultado", VBool false);
     ("tolerancia_aplicada", VStr "Exata"); ("chave", VStr "E1")] in
  let second := object_of
    [("linha_idx", VInt 1); ("coluna", VStr "TOTAL"); ("valor_arquivo_1", VInt 7);
     ("valor_arquivo_2", VInt 7); ("resultado", VBool true);
     ("tolerancia_aplicada", VStr "Exata")] in
  let h : store := <[0 := first]> (<[1 := second]> ∅) in
  let impacto := py_dict [("E1_TOTAL_0", "Possiveis causas: divergencias em SALARIO")] in
  Forall (fun r => exists resultado, h !! r = Some resultado /\ validation_result resultado)
    [0; 1] /\
  exists h' out,
    gerar_relatorio_impacto impacto h [0; 1] = Some (h', out) /\
    length out = 2 /\
    (forall r resultado, h !! r = Some resultado -> h' !! r = Some resultado) /\
    Forall (fun r' => h !! r' = None) out /\
    NoDup out /\
    Forall2 (fun r r' => exists inp o,
               h !! r = Some inp /\ h' !! r' = Some o /\ enriched impacto inp o)
      [0; 1] out.
Proof.
  intros first second h impacto.
  assert (Hfields : forall o : object,
            forallb (fun field => bool_decide (is_Some (o !! field))) validator_fields = true ->
            bool_decide (o !! divergencias_na_formula = None) = true ->
            validation_result o).
  { intros o Hf Hd. split; [|by apply bool_decide_eq_true in Hd].
    apply Forall_forall. intros field Hin. rewrite forallb_forall in Hf.
    apply list_elem_of_In in Hin. by apply Hf, bool_decide_eq_true in Hin. }
  assert (Hall : Forall (fun r => exists resultado,
                   h !! r = Some resultado /\ validation_result resultado) [0; 1]).
  { apply List.Forall_cons; [|apply List.Forall_cons; [|apply List.Forall_nil]].
    - exists first. split; [apply lookup_insert_eq|].
      apply Hfields; vm_compute; reflexivity.
    - exists second. split.
      + unfold h. rewrite lookup_insert_ne by lia. apply lookup_insert_eq.
      + apply Hfields; vm_compute; reflexivity. }
  split; [exact Hall|].
  exact (gerar_relatorio_preserves_results impacto h [0; 1] Hall).
Defined.

(* ================================================================== *)
(** * Further properties of the code *)
(* ================================================================== *)

(** ** Translation: unmapped letters, unused keys, formulas without sheets *)

Module TranslateMore.

Import ReSpec ReFacts TranslateSpec TranslateFacts.

Lemma translate_is_splice formula translation_map :
  _translate_formula formula translation_map
  = splice translation_map formula 0 (finditer cell_ref_pattern formula).
Proof.
  unfold _translate_formula. rewrite foldl_reverse.
  by rewrite (translate_fold _ _ _ 0 (finditer_spans cell_ref_pattern formula)).
Qed.

Lemma splice_agree (tm tm' : gmap str str) formula : forall ms pos,
  Forall (fun m => tm !! group_at 1 1 m = tm' !! group_at 1 1 m) ms ->
  splice tm formula pos ms = splice tm' formula pos ms.
Proof.
  induction ms as [|m ms IH]; intros pos Hall; [done|].
  apply Forall_cons in Hall as [Hm Hall]. simpl.
  unfold token_image. rewrite Hm. by rewrite (IH _ Hall).
Qed.

Lemma translate_steps_unmapped (tm : gmap str str) : forall ms translated,
  Forall (fun m => tm !! group_at 1 1 m = None) ms ->
  foldl (translate_step tm) translated ms = translated.
Proof.
  induction ms as [|m ms IH]; intros translated Hall; [done|].
  apply Forall_cons in Hall as [Hm Hall]. simpl.
  unfold translate_step at 2. rewrite Hm. by apply IH.
Qed.

(** The text of a match lies in the formula. *)
Lemma span_text_in (formula : str) lo ms m (c : ascii) :
  spans_ok lo formula ms -> m ∈ ms -> c ∈ text m -> c ∈ formula.
Proof.
  revert lo. induction ms as [|m0 ms IH]; intros lo Hspans Hin Hc.
  { by apply elem_of_nil in Hin. }
  destruct Hspans as (_ & _ & _ & Htext & Hrest).
  apply elem_of_cons in Hin as [->|Hin]; [|by eapply IH].
  rewrite Htext in Hc. unfold slice in Hc.
  apply list_elem_of_lookup in Hc as [i Hi].
  apply lookup_take_Some in Hi as [Hi _]. rewrite lookup_drop in Hi.
  apply list_elem_of_lookup. eauto.
Qed.

Lemma sheet_ref_has_bang prev (s : str) ps rest :
  rmatch sheet_ref_pattern prev s = Some (ps, rest) -> "!"%char ∈ concat ps.
Proof.
  intros [_ H0]%rmatch_sound.
  apply Forall2_cons_inv_l in H0 as (x0 & ps0 & _ & H1 & ->).
  apply Forall2_cons_inv_l in H1 as (x1 & ps1 & (c & -> & Hc) & _ & ->).
  apply bool_decide_eq_true in Hc as <-.
  simpl. rewrite elem_of_app. right. left.
Qed.

Lemma no_sheet_refs (formula : str) :
  "!"%char ∉ formula -> finditer sheet_ref_pattern formula = [].
Proof.
  intros Hno.
  pose proof (finditer_spans sheet_ref_pattern formula) as Hspans.
  pose proof (finditer_scan_pieces sheet_ref_pattern (fun ps => "!"%char ∈ concat ps)
                sheet_ref_has_bang formula 0 0 None) as Hbang.
  fold (finditer sheet_ref_pattern formula) in Hbang.
  destruct (finditer sheet_ref_pattern formula) as [|m ms]; [done|].
  exfalso. apply Hno. apply Forall_cons in Hbang as [Hm _].
  eapply span_text_in; [exact Hspans | left | exact Hm].
Qed.

(** On a formula without [!] the second loop of the multi-sheet translator
    takes the steps of the plain translator. *)
Lemma local_steps_plain (tm : gmap str str) (formula : str) :
  "!"%char ∉ formula ->
  forall ms lo,
    spans_ok lo formula ms ->
    foldr (fun m acc => local_step tm acc m) formula ms
    = foldr (fun m acc => translate_step tm acc m) formula ms.
Proof.
  intros Hno. induction ms as [|m ms IH]; intros lo Hspans; [done|].
  destruct Hspans as (Hlo & Hlt & Hend & Htext & Hrest).
  simpl. rewrite (IH _ Hrest). rewrite (translate_fold _ _ _ _ Hrest).
  unfold local_step, translate_step.
  destruct (bool_decide (0 < m_start m)) eqn:Hpos; simpl; [|done].
  apply bool_decide_eq_true in Hpos.
  rewrite lookup_app_l by (rewrite length_take; lia).
  rewrite lookup_take_lt by lia.
  destruct (formula !! (m_start m - 1)) as [c|] eqn:Hc.
  - rewrite bool_decide_eq_false_2; [done|].
    intros [= ->]. apply Hno. apply list_elem_of_lookup. eauto.
  - by rewrite bool_decide_eq_false_2.
Qed.

Lemma multi_sheet_plain (formula : str) (tm : gmap str str) :
  "!"%char ∉ formula ->
  _translate_formula_multi_sheet formula tm = _translate_formula formula tm.
Proof.
  intros Hno. unfold _translate_formula_multi_sheet, _translate_formula.
  rewrite (no_sheet_refs _ Hno). simpl.
  rewrite !foldl_reverse.
  apply (local_steps_plain tm formula Hno _ 0), finditer_spans.
Qed.


End TranslateMore.

(** X1. A formula none of whose cell references has its column letter in the
    translation map is returned unchanged by [_translate_formula]. *)
Theorem translate_formula_unmapped_unchanged :
  forall (formula : str) (translation_map : gmap str str),
    Forall (fun m => translation_map !! group_at 1 1 m = None)
      (finditer cell_ref_pattern formula) ->
    _translate_formula formula translation_map = formula.
Proof.
  intros formula tm Hall. unfold _translate_formula.
  apply TranslateMore.translate_steps_unmapped.
  by apply Forall_reverse.
Qed.

Lemma translate_formula_unmapped_unchanged_witness :
  Forall (fun m => py_dict [("C", "BONUS")] !! group_at 1 1 m = None)
    (finditer cell_ref_pattern "=A2+B$3") /\
  _translate_formula "=A2+B$3" (py_dict [("C", "BONUS")]) = "=A2+B$3".
Proof.
  assert (H : Forall (fun m => py_dict [("C", "BONUS")] !! group_at 1 1 m = None)
                (finditer cell_ref_pattern "=A2+B$3")).
  { replace (finditer cell_ref_pattern "=A2+B$3") with [Rematch 1 3 [[]; "A" : str; "2" : str; []]]
      by (vm_compute; reflexivity).
    apply List.Forall_cons; [vm_compute; reflexivity | apply List.Forall_nil]. }
  split; [exact H|].
  exact (translate_formula_unmapped_unchanged "=A2+B$3" (py_dict [("C", "BONUS")]) H).
Defined.

(** X2. [_translate_formula] reads the translation map at the column letters
    of the cell references only: two maps that agree on these letters give
    the same translation, whatever other keys (such as [$A] or [Sheet!A])
    they hold. *)
Theorem translate_formula_reads_token_letters :
  forall (formula : str) (tm tm' : gmap str str),
    Forall (fun m => tm !! group_at 1 1 m = tm' !! group_at 1 1 m)
      (finditer cell_ref_pattern formula) ->
    _translate_formula formula tm = _translate_formula formula tm'.
Proof.
  intros formula tm tm' Hall. rewrite !TranslateMore.translate_is_splice.
  by apply TranslateMore.splice_agree.
Qed.

Lemma translate_formula_reads_token_letters_witness :
  Forall (fun m => register_mixed_ref ∅ "A" "SALARIO" !! group_at 1 1 m
                   = py_dict [("A", "SALARIO")] !! group_at 1 1 m)
    (finditer cell_ref_pattern "=A2*$A$1") /\
  _translate_formula "=A2*$A$1" (register_mixed_ref ∅ "A" "SALARIO")
  = _translate_formula "=A2*$A$1" (py_dict [("A", "SALARIO")]).
Proof.
  assert (H : Forall (fun m => register_mixed_ref ∅ "A" "SALARIO" !! group_at 1 1 m
                   = py_dict [("A", "SALARIO")] !! group_at 1 1 m)
                (finditer cell_ref_pattern "=A2*$A$1")).
  { replace (finditer cell_ref_pattern "=A2*$A$1") with [Rematch 1 3 [[]; "A" : str; "2" : str; []]]
      by (vm_compute; reflexivity).
    apply List.Forall_cons; [vm_compute; reflexivity | apply List.Forall_nil]. }
  split; [exact H|].
  exact (translate_formula_reads_token_letters _ _ _ H).
Defined.

(** X3. On a formula without [!], that is without sheet-qualified
    references, [_translate_formula_multi_sheet] returns what
    [_translate_formula] returns. *)
Theorem translate_multi_sheet_without_sheets :
  forall (formula : str) (translation_map : gmap str str),
    "!"%char ∉ formula ->
    _translate_formula_multi_sheet formula translation_map
    = _translate_formula formula translation_map.
Proof. intros formula tm Hno. by apply TranslateMore.multi_sheet_plain. Qed.

Lemma translate_multi_sheet_without_sheets_witness :
  ("!"%char ∉ list_ascii_of_string "=A2+B2") /\
  _translate_formula_multi_sheet "=A2+B2" (py_dict [("A", "SALARIO")])
  = _translate_formula "=A2+B2" (py_dict [("A", "SALARIO")]).
Proof.
  assert (H : "!"%char ∉ list_ascii_of_string "=A2+B2").
  { intros Hin. simpl in Hin.
    repeat (apply elem_of_cons in Hin as [Hin|Hin]; [discriminate|]).
    by apply elem_of_nil in Hin. }
  split; [exact H|].
  exact (translate_multi_sheet_without_sheets _ _ H).
Defined.


(** ** Generalized patterns *)

Module GeneralizeMore.

Import ReSpec ReFacts TranslateSpec TranslateFacts GeneralizeSpec GeneralizeFacts PatternSpec.








End GeneralizeMore.




(** ** The cycle detector *)

Module DfsFacts.

Import CrossSheet DfsSpec LevelFacts.

Lemma has_cycle_unfold fuel dependencies node st :
  has_cycle (S fuel) dependencies node st
  = neighbors_loop fuel dependencies node (deps_get dependencies node) (enter node st).
Proof.
  simpl. generalize (enter node st). generalize (deps_get dependencies node).
  induction l as [|neighbor ns IH]; intros st0; [done|].
  simpl. destruct (negb (flag (visited st0) neighbor)).
  - destruct (has_cycle fuel dependencies neighbor st0) as [v st'| |]; [|done..].
    destruct (truthy v); [done|apply IH].
  - destruct (flag (rec_stack st0) neighbor); [done|apply IH].
Qed.

Lemma index_lt (x : str) : forall l i, index x l = Some i -> i < length l.
Proof.
  induction l as [|y l IH]; intros i; simpl; [done|].
  destruct (decide (y = x)); [intros [= <-]; lia|].
  destruct (index x l) as [j|] eqn:E; simpl; [|done].
  intros [= <-]. specialize (IH j eq_refl). lia.
Qed.

Lemma index_singleton (x y : str) i : index x [y] = Some i -> x = y /\ i = 0.
Proof. simpl. destruct (decide (y = x)); [by intros [= <-]|done]. Qed.

Lemma pop_snoc (l : list str) x : pop (l ++ [x]) = l.
Proof.
  unfold pop. rewrite length_app. simpl.
  replace (length l + 1 - 1) with (length l) by lia. by rewrite take_app_length.
Qed.

Lemma has_cycle_path (dependencies : deps_map) : forall fuel (node : str) st,
  call_ok dependencies node (path st) (has_cycle fuel dependencies node st).
Proof.
  induction fuel as [|fuel IH]; intros node st; [done|].
  rewrite has_cycle_unfold.
  assert (Hloop : forall ns st0,
            (forall n, n ∈ ns -> n ∈ deps_get dependencies node) ->
            path st0 = path st ++ [node] ->
            call_ok dependencies node (path st)
              (neighbors_loop fuel dependencies node ns st0)).
  { induction ns as [|neighbor ns IHns]; intros st0 Hsub Hpath; simpl.
    - by rewrite Hpath, pop_snoc.
    - destruct (negb (flag (visited st0) neighbor)).
      + specialize (IH neighbor st0).
        destruct (has_cycle fuel dependencies neighbor st0) as [v st'| |]; [|done..].
        destruct v as [| |l]; simpl.
        * simpl in IH. apply IHns; [|congruence].
          intros n Hn. apply Hsub. by right.
        * done.
        * simpl in IH. destruct IH as (nb & i & _ & Hi & ->).
          apply index_lt in Hi.
          rewrite bool_decide_eq_true_2; [done|].
          intros Hnil. apply (f_equal length) in Hnil. rewrite length_drop in Hnil.
          simpl in Hnil. lia.
      + destruct (flag (rec_stack st0) neighbor).
        * destruct (index neighbor (path st0)) as [i|] eqn:Hi; [|done]. simpl.
          exists neighbor, i. rewrite <-Hpath. split; [apply Hsub; left|done].
        * apply IHns; [|done]. intros n Hn. apply Hsub. by right. }
  apply Hloop; [done|]. done.
Qed.

(** *** The fuel is enough *)

Lemma deps_get_mentioned (dependencies : deps_map) (node n : str) :
  n ∈ deps_get dependencies node -> n ∈ collect_sheets dependencies.
Proof.
  unfold deps_get. intros Hn. apply elem_of_collect_sheets.
  destruct (Dict.get dependencies node) as [ds|] eqn:Hget; simpl in Hn;
    [|by apply elem_of_nil in Hn].
  exists node, ds. split; [|by right].
  clear Hn. induction dependencies as [|[k v] d IH]; simpl in Hget; [done|].
  destruct (decide (k = node)) as [->|?].
  - injection Hget as ->. left.
  - right. by apply IH.
Qed.

Lemma unvisited_list_grows (l : list str) (v v' : gmap str bool) :
  grows v v' ->
  length (filter (fun sheet => flag v' sheet = false) l)
  <= length (filter (fun sheet => flag v sheet = false) l).
Proof.
  intros Hg. induction l as [|x l IH]; [done|].
  rewrite !filter_cons.
  destruct (decide (flag v' x = false)) as [Hx'|Hx'];
    destruct (decide (flag v x = false)) as [Hx|Hx]; simpl; try lia.
  apply not_false_is_true in Hx. apply Hg in Hx. congruence.
Qed.

Lemma grows_insert (v : gmap str bool) (node : str) : grows v (<[node := true]> v).
Proof.
  intros x Hx. unfold flag in *. rewrite lookup_insert. by case_decide.
Qed.

Lemma unvisited_enter (dependencies : deps_map) (v : gmap str bool) (node : str) :
  node ∈ unvisited dependencies v ->
  length (unvisited dependencies (<[node := true]> v)) < length (unvisited dependencies v).
Proof.
  unfold unvisited. intros [Hflag Hin]%list_elem_of_filter.
  induction (collect_sheets dependencies) as [|x l IH]; [by apply elem_of_nil in Hin|].
  rewrite !filter_cons.
  pose proof (unvisited_list_grows l v _ (grows_insert v node)) as Hle.
  apply elem_of_cons in Hin as [<-|Hin].
  - rewrite (decide_True (P := flag v node = false)) by done.
    rewrite decide_False; [simpl; lia|].
    unfold flag. by rewrite lookup_insert_eq.
  - specialize (IH Hin).
    destruct (decide (flag (<[node:=true]> v) x = false)) as [Hx'|Hx'];
      destruct (decide (flag v x = false)) as [Hx|Hx]; simpl; try lia.
    apply not_false_is_true, (grows_insert v node) in Hx. congruence.
Qed.

Lemma has_cycle_fuel (dependencies : deps_map) : forall fuel (node : str) st,
  node ∈ unvisited dependencies (visited st) ->
  length (unvisited dependencies (visited st)) <= fuel ->
  call_returns (visited st) (has_cycle fuel dependencies node st).
Proof.
  induction fuel as [|fuel IH]; intros node st Hnode Hfuel.
  { destruct (unvisited dependencies (visited st)); [by apply elem_of_nil in Hnode|].
    simpl in Hfuel. lia. }
  rewrite has_cycle_unfold.
  pose proof (unvisited_enter _ _ _ Hnode) as Hlt.
  assert (Hloop : forall ns st0,
            (forall n, n ∈ ns -> n ∈ collect_sheets dependencies) ->
            length (unvisited dependencies (visited st0)) <= fuel ->
            call_returns (visited st0) (neighbors_loop fuel dependencies node ns st0)).
  { induction ns as [|neighbor ns IHns]; intros st0 Hsub Hlen; simpl.
    - by intros x.
    - destruct (negb (flag (visited st0) neighbor)) eqn:Hvis.
      + apply negb_true_iff in Hvis.
        assert (Hin : neighbor ∈ unvisited dependencies (visited st0)).
        { apply list_elem_of_filter. split; [done|]. apply Hsub. left. }
        specialize (IH neighbor st0 Hin Hlen).
        destruct (has_cycle fuel dependencies neighbor st0) as [v st'| |]; [|done..].
        simpl in IH. destruct (truthy v); [done|].
        assert (Hrest : call_returns (visited st')
                          (neighbors_loop fuel dependencies node ns st')).
        { apply IHns; [intros n Hn; apply Hsub; by right|].
          etrans; [apply unvisited_list_grows, IH|done]. }
        destruct (neighbors_loop fuel dependencies node ns st') as [v2 st2| |]; [|done..].
        simpl in *. intros x Hx. by apply Hrest, IH.
      + destruct (flag (rec_stack st0) neighbor).
        * destruct (index neighbor (path st0)); simpl; [by intros x|done].
        * apply IHns; [intros n Hn; apply Hsub; by right|done]. }
  specialize (Hloop (deps_get dependencies node) (enter node st)).
  destruct (neighbors_loop fuel dependencies node (deps_get dependencies node) (enter node st))
    as [v st'| |] eqn:E; simpl.
  - intros x Hx. simpl in Hloop.
    apply Hloop; [intros n; apply deps_get_mentioned | simpl; lia |].
    by apply grows_insert.
  - done.
  - apply Hloop; [intros n; apply deps_get_mentioned | simpl; lia].
Qed.

Lemma detect_loop_answer (dependencies : deps_map) : forall (nodes : list str) (v r : gmap str bool),
  (forall n, n ∈ nodes -> n ∈ collect_sheets dependencies) ->
  self_cycle_or_none dependencies (detect_loop dependencies nodes v r).
Proof.
  induction nodes as [|node nodes IH]; intros v r Hsub; [done|].
  assert (Hrest : forall v' r', self_cycle_or_none dependencies
                    (detect_loop dependencies nodes v' r')).
  { intros v' r'. apply IH. intros n Hn. apply Hsub. by right. }
  cbn [detect_loop]. destruct (negb (flag v node)) eqn:Hvis; [|apply Hrest].
  apply negb_true_iff in Hvis.
  pose proof (has_cycle_path dependencies (dfs_fuel dependencies) node (DfsState v r []))
    as Hpath.
  pose proof (has_cycle_fuel dependencies (dfs_fuel dependencies) node (DfsState v r []))
    as Hfuel.
  destruct (has_cycle (dfs_fuel dependencies) dependencies node (DfsState v r []))
    as [val st| |]; [|exact I|].
  - destruct val as [| |[|y l]]; [apply Hrest..|].
    simpl in Hpath. destruct Hpath as (nb & i & Hnb & Hi & Hl).
    apply index_singleton in Hi as [-> ->]. simpl in Hl. injection Hl as -> ->. done.
  - apply Hfuel.
    + apply list_elem_of_filter. split; [done|]. apply Hsub. left.
    + unfold dfs_fuel, unvisited. simpl.
      etrans; [apply length_filter|]. lia.
Qed.

End DfsFacts.

(** X7. [_detect_circular_dependencies] always returns or raises (the
    recursion is never deeper than the number of sheets), and the only cycle
    it can return is a single sheet that depends on itself: a cycle through
    two or more sheets is never returned. *)
Theorem detect_circular_answers :
  forall dependencies : CrossSheet.deps_map,
    DfsSpec.self_cycle_or_none dependencies
      (CrossSheet._detect_circular_dependencies dependencies).
Proof.
  intros dependencies. apply DfsFacts.detect_loop_answer.
  intros n Hn. apply LevelFacts.elem_of_collect_sheets.
  apply list_elem_of_fmap in Hn as ([k ds] & -> & Hin).
  exists k, ds. split; [done|by left].
Qed.

(** ** The analysis of a workbook *)

Module AnalysisFacts.

Import CrossSheet Analysis DictFacts LevelFacts.

Lemma deps_get_add1 (sheet_name : str) (deps : deps_map) (r : cross_ref) (s t : str) :
  s ∈ deps_get (add_dependency sheet_name deps r) t
  <-> s ∈ deps_get deps t \/ (s = sheet_name /\ target_sheet r = t).
Proof.
  unfold add_dependency, deps_get, get_or. rewrite get_set.
  destruct (decide (target_sheet r = t)) as [Ht|Ht]; simpl.
  - rewrite elem_of_set_add, Ht. tauto.
  - tauto.
Qed.

Lemma deps_get_add (sheet_name : str) : forall (refs : list cross_ref) (deps : deps_map) (s t : str),
  s ∈ deps_get (foldl (add_dependency sheet_name) deps refs) t
  <-> s ∈ deps_get deps t \/ (s = sheet_name /\ exists ref, ref ∈ refs /\ target_sheet ref = t).
Proof.
  induction refs as [|r refs IH]; intros deps s t; simpl.
  - split; [auto|]. intros [?|[_ (? & []%elem_of_nil & _)]]; done.
  - rewrite IH, deps_get_add1. split.
    + intros [[?|[-> Ht]]|[-> (ref & Hin & Hr)]]; [by left|right..].
      * split; [done|]. exists r. split; [left|done].
      * split; [done|]. exists ref. split; [by right|done].
    + intros [?|[-> (ref & Hin & Hr)]]; [by left; left|].
      apply elem_of_cons in Hin as [->|Hin]; [left; by right|].
      right. split; [done|]. eauto.
Qed.

Lemma extracted_refs_ok (formula current_sheet : str) :
  Forall (fun ref => target_sheet ref <> current_sheet /\ source_sheet ref = current_sheet)
    (_extract_cross_references formula current_sheet).
Proof.
  apply Forall_forall. intros ref.
  unfold _extract_cross_references. rewrite list_elem_of_In, in_flat_map.
  intros ([name pattern] & _ & Href). apply list_elem_of_In, list_elem_of_omap in Href.
  destruct Href as (match_ & _ & Href).
  destruct (target_of match_) as [[target target_ref]|]; [|discriminate].
  destruct (decide (target <> current_sheet)); [|discriminate].
  by injection Href as <-.
Qed.

Lemma analyze_formula_consistent (sheet_name : str) data (formula : str) :
  consistent data -> consistent (analyze_formula sheet_name data formula).
Proof.
  intros [Hsrc Hdeps]. unfold analyze_formula.
  pose proof (extracted_refs_ok formula sheet_name) as Hrefs.
  destruct (_extract_cross_references formula sheet_name) as [|r refs] eqn:E; [done|].
  set (new := r :: refs) in *.
  assert (Hget : forall s, refs_of (WorkbookData (sheets data)
            (Dict.set (cross_references data) sheet_name
               (get_or (cross_references data) sheet_name [] ++ new))
            (foldl (add_dependency sheet_name) (dependencies data) new)) s
          = if decide (sheet_name = s) then refs_of data s ++ new else refs_of data s).
  { intros s. unfold refs_of, get_or. simpl. rewrite get_set.
    by destruct (decide (sheet_name = s)) as [->|?]. }
  split.
  - intros s ref. rewrite Hget. destruct (decide (sheet_name = s)) as [->|?]; [|apply Hsrc].
    intros [?|Hin]%elem_of_app; [by apply Hsrc|].
    rewrite Forall_forall in Hrefs. destruct (Hrefs _ Hin). done.
  - intros s t. cbn [dependencies]. rewrite deps_get_add, (Hdeps s t). split.
    + intros [(ref & Hin & Ht)|[-> (ref & Hin & Ht)]]; exists ref; rewrite Hget.
      * split; [|done]. destruct (decide _); [apply elem_of_app; by left|done].
      * split; [|done]. rewrite decide_True by done. apply elem_of_app. by right.
    + intros (ref & Hin & Ht). rewrite Hget in Hin.
      destruct (decide (sheet_name = s)) as [->|?]; [|left; eauto].
      apply elem_of_app in Hin as [?|?]; [left|right]; eauto.
Qed.

Lemma analyze_workbook_consistent sheet_data : consistent (analyze_workbook_native sheet_data).
Proof.
  unfold analyze_workbook_native.
  assert (H0 : consistent (WorkbookData [] [] [])).
  { split.
    - intros s ref Hin. by apply elem_of_nil in Hin.
    - intros s t. split; [intros Hin; by apply elem_of_nil in Hin|].
      intros (ref & Hin & _). by apply elem_of_nil in Hin. }
  revert H0. generalize (WorkbookData [] [] []).
  induction sheet_data as [|sheet sheet_data IH]; intros data Hdata; [done|].
  simpl. apply IH. unfold analyze_sheet.
  assert (H1 : consistent (WorkbookData (Dict.set (sheets data) sheet.1 sheet.2)
                             (cross_references data) (dependencies data))) by done.
  revert H1. generalize (WorkbookData (Dict.set (sheets data) sheet.1 sheet.2)
                             (cross_references data) (dependencies data)).
  induction (sheet.2.*2) as [|formula formulas IHf]; intros d Hd; [done|].
  simpl. by apply IHf, analyze_formula_consistent.
Qed.

Lemma no_self_dependency sheet_data (t : str) :
  t ∉ deps_get (dependencies (analyze_workbook_native sheet_data)) t.
Proof.
  destruct (analyze_workbook_consistent sheet_data) as [Hsrc Hdeps].
  intros (ref & Hin & Ht)%Hdeps. apply Hsrc in Hin as [_ Hne]. done.
Qed.

Lemma keys_analyze_formula (sheet_name : str) data (formula : str) :
  NoDup (cross_references data).*1 ->
  NoDup (cross_references (analyze_formula sheet_name data formula)).*1.
Proof.
  intros Hnd. unfold analyze_formula.
  destruct (_extract_cross_references formula sheet_name); [done|].
  simpl. by apply NoDup_set.
Qed.

Lemma keys_analyze_workbook sheet_data :
  NoDup (cross_references (analyze_workbook_native sheet_data)).*1.
Proof.
  unfold analyze_workbook_native.
  assert (H0 : NoDup (cross_references (WorkbookData [] [] [])).*1) by constructor.
  revert H0. generalize (WorkbookData [] [] []).
  induction sheet_data as [|sheet sheet_data IH]; intros data Hdata; [done|].
  simpl. apply IH. unfold analyze_sheet.
  assert (H1 : NoDup (cross_references (WorkbookData (Dict.set (sheets data) sheet.1 sheet.2)
                             (cross_references data) (dependencies data))).*1) by done.
  revert H1. generalize (WorkbookData (Dict.set (sheets data) sheet.1 sheet.2)
                             (cross_references data) (dependencies data)).
  induction (sheet.2.*2) as [|formula formulas IHf]; intros d Hd; [done|].
  simpl. by apply IHf, keys_analyze_formula.
Qed.

(** *** Edges *)

Lemma elem_of_targets (t : str) : forall (refs : list cross_ref) (acc : list str),
  t ∈ foldl (fun targets ref => set_add targets (target_sheet ref)) acc refs
  <-> t ∈ acc \/ exists ref, ref ∈ refs /\ target_sheet ref = t.
Proof.
  induction refs as [|r refs IH]; intros acc; simpl.
  - split; [auto|]. intros [?|(? & []%elem_of_nil & _)]; done.
  - rewrite IH, elem_of_set_add. split.
    + intros [[?|Heq]|(ref & Hin & Ht)]; [by left|right..].
      * exists r. split; [left|done].
      * exists ref. split; [by right|done].
    + intros [?|(ref & Hin & Ht)]; [by left; left|].
      apply elem_of_cons in Hin as [->|Hin]; [left; by right|]. right. eauto.
Qed.

Lemma NoDup_targets : forall (refs : list cross_ref) (acc : list str),
  NoDup acc -> NoDup (foldl (fun targets ref => set_add targets (target_sheet ref)) acc refs).
Proof.
  induction refs as [|r refs IH]; intros acc Hacc; [done|].
  simpl. by apply IH, NoDup_set_add.
Qed.

Lemma sum_counts (refs : list cross_ref) : forall ts : list str,
  NoDup ts -> (forall r, r ∈ refs -> target_sheet r ∈ ts) ->
  sum_list (map (fun t => length (filter (fun r => target_sheet r = t) refs)) ts)
  = length refs.
Proof.
  induction refs as [|r refs IH]; intros ts Hnd Hcov.
  { clear. induction ts as [|t ts IHts]; [done|]. simpl in *. exact IHts. }
  assert (Hone : forall ts : list str, NoDup ts ->
            sum_list (map (fun t => length (filter (fun r0 => target_sheet r0 = t) (r :: refs))) ts)
            = (if decide (target_sheet r ∈ ts) then 1 else 0)
              + sum_list (map (fun t => length (filter (fun r0 => target_sheet r0 = t) refs)) ts)).
  { clear. induction ts as [|t ts IHts]; intros Hnd; [done|].
    apply NoDup_cons in Hnd as [Ht Hnd]. simpl map. simpl sum_list.
    rewrite (IHts Hnd), filter_cons.
    destruct (decide (target_sheet r = t)) as [Heq|Hne];
      destruct (decide (target_sheet r ∈ ts)) as [Hin|Hin];
      destruct (decide (target_sheet r ∈ t :: ts)) as [Hin'|Hin'];
      simpl; try lia.
    - by rewrite Heq in Hin.
    - by rewrite Heq in Hin.
    - exfalso. apply Hin'. rewrite Heq. left.
    - exfalso. apply Hin'. by right.
    - apply elem_of_cons in Hin' as [?|?]; done. }
  rewrite (Hone ts Hnd), decide_True by (apply Hcov; left).
  rewrite IH; [done..|]. intros r0 Hr0. apply Hcov. by right.
Qed.

Lemma sum_edges_of (s : str) (refs : list cross_ref) :
  sum_list (edge_count <$> edges_of s refs) = length refs.
Proof.
  unfold edges_of. rewrite <-list_fmap_compose.
  apply (sum_counts refs).
  - apply NoDup_targets. constructor.
  - intros r Hr. apply elem_of_targets. right. eauto.
Qed.

Lemma edges_from (s : str) : forall cr : list (str * list cross_ref),
  NoDup cr.*1 ->
  filter (fun e => edge_source e = s) (flat_map (fun entry => edges_of entry.1 entry.2) cr)
  = edges_of s (default [] (Dict.get cr s)).
Proof.
  assert (Hall : forall k refs, filter (fun e => edge_source e = s) (edges_of k refs)
                  = if decide (k = s) then edges_of k refs else []).
  { intros k refs. unfold edges_of.
    induction (foldl _ [] refs) as [|t ts IHts]; [by destruct (decide (k = s))|].
    simpl. rewrite filter_cons. simpl. rewrite IHts.
    by destruct (decide (k = s)). }
  induction cr as [|[k refs] cr IH]; intros Hnd; [done|].
  apply NoDup_cons in Hnd as [Hk Hnd]. simpl. rewrite filter_app, Hall, (IH Hnd).
  destruct (decide (k = s)) as [->|Hne]; [|done].
  assert (Hnone : Dict.get cr s = None).
  { clear -Hk. induction cr as [|[k' v'] cr IHc]; [done|]. simpl.
    destruct (decide (k' = s)) as [->|?].
    - exfalso. apply Hk. left.
    - apply IHc. intros Hin. apply Hk. by right. }
  rewrite Hnone. simpl. by rewrite app_nil_r.
Qed.

Lemma detect_answer (deps : deps_map) :
  DfsSpec.self_cycle_or_none deps (_detect_circular_dependencies deps).
Proof.
  apply DfsFacts.detect_loop_answer.
  intros n Hn. apply elem_of_collect_sheets.
  apply list_elem_of_fmap in Hn as ([k ds] & -> & Hin).
  exists k, ds. split; [done|by left].
Qed.

End AnalysisFacts.

(** X8. In the data [analyze_workbook_native] gathers, every cross reference
    recorded under a sheet has that sheet as source and another sheet as
    target, and the dependencies are the cross references read backwards: a
    sheet is in the dependency set of [t] exactly when one of its references
    targets [t].  So no sheet is in its own dependency set. *)
Theorem workbook_dependencies_mirror_references :
  forall sheet_data : list (str * list (str * str)),
    let data := Analysis.analyze_workbook_native sheet_data in
    (forall s ref, ref ∈ Analysis.refs_of data s ->
       CrossSheet.source_sheet ref = s /\ CrossSheet.target_sheet ref <> s) /\
    (forall s t, s ∈ CrossSheet.deps_get (Analysis.dependencies data) t
                 <-> exists ref, ref ∈ Analysis.refs_of data s /\
                       CrossSheet.target_sheet ref = t) /\
    (forall t, t ∉ CrossSheet.deps_get (Analysis.dependencies data) t).
Proof.
  intros sheet_data data.
  destruct (AnalysisFacts.analyze_workbook_consistent sheet_data) as [Hsrc Hdeps].
  split; [exact Hsrc|]. split; [exact Hdeps|].
  intros t. apply AnalysisFacts.no_self_dependency.
Qed.

(** X9. On the dependencies of an analysed workbook
    [_detect_circular_dependencies] never returns a cycle: it returns the
    empty list or raises; and [suggest_optimizations] never suggests
    ['dependencia_circular']. *)
Theorem analysed_workbook_never_reports_cycle :
  forall sheet_data : list (str * list (str * str)),
    let data := Analysis.analyze_workbook_native sheet_data in
    match CrossSheet._detect_circular_dependencies (Analysis.dependencies data) with
    | CrossSheet.Returned [] | CrossSheet.Raised => True
    | _ => False
    end /\
    forall suggestions circular,
      CrossSheet.suggest_optimizations (Analysis.dependencies data)
        (Analysis.cross_references data) = Some suggestions ->
      CrossSheet.dependencia_circular circular ∉ suggestions.
Proof.
  intros sheet_data data.
  pose proof (AnalysisFacts.detect_answer (Analysis.dependencies data)) as Hans.
  pose proof (AnalysisFacts.no_self_dependency sheet_data) as Hself. fold data in Hself.
  unfold CrossSheet.suggest_optimizations.
  destruct (CrossSheet._detect_circular_dependencies (Analysis.dependencies data))
    as [[|x [|y l]]| |]; simpl in Hans; try done.
  - split; [done|]. intros suggestions circular [= <-]. simpl.
    rewrite elem_of_app, !list_elem_of_omap.
    intros [([k v] & _ & H)|([k v] & _ & H)]; simpl in H;
      by destruct (_ <? _).
  - by apply Hself in Hans.
Qed.

(** X10. The graph [generate_dependency_graph] builds for an analysed
    workbook has exactly one edge for each pair of a sheet and another sheet
    it references: no two edges of a sheet share a target, no edge joins a
    sheet to itself, an edge from [s] to [t] exists exactly when [s] is in the
    dependency set of [t], and its count is the number (at least one) of the
    references of [s] that target [t].  For every sheet the counts of its
    edges add up to the number of its cross references. *)
Theorem dependency_graph_edges :
  forall sheet_data : list (str * list (str * str)),
    let data := Analysis.analyze_workbook_native sheet_data in
    let g := Analysis.generate_dependency_graph data in
    (forall s,
       NoDup (Analysis.edge_target <$>
                filter (fun e => Analysis.edge_source e = s) (Analysis.edges g))) /\
    (forall e, e ∈ Analysis.edges g ->
       Analysis.edge_source e <> Analysis.edge_target e /\
       1 <= Analysis.edge_count e /\
       Analysis.edge_count e
       = length (filter (fun r => CrossSheet.target_sheet r = Analysis.edge_target e)
                   (Analysis.refs_of data (Analysis.edge_source e)))) /\
    (forall s t,
       (exists e, e ∈ Analysis.edges g /\ Analysis.edge_source e = s /\
                  Analysis.edge_target e = t)
       <-> s ∈ CrossSheet.deps_get (Analysis.dependencies data) t) /\
    (forall s,
       sum_list (Analysis.edge_count <$>
                   filter (fun e => Analysis.edge_source e = s) (Analysis.edges g))
       = length (Analysis.refs_of data s)).
Proof.
  intros sheet_data data g.
  destruct (AnalysisFacts.analyze_workbook_consistent sheet_data) as [Hsrc Hdeps].
  fold data in Hsrc, Hdeps.
  assert (Hfrom : forall s,
            filter (fun e => Analysis.edge_source e = s) (Analysis.edges g)
            = Analysis.edges_of s (Analysis.refs_of data s)).
  { intros s. apply AnalysisFacts.edges_from, AnalysisFacts.keys_analyze_workbook. }
  assert (Hedge : forall e, e ∈ Analysis.edges g ->
            exists t, e = Analysis.Edge (Analysis.edge_source e) t
                      (length (filter (fun r => CrossSheet.target_sheet r = t)
                                 (Analysis.refs_of data (Analysis.edge_source e)))) /\
                      exists ref, ref ∈ Analysis.refs_of data (Analysis.edge_source e) /\
                                  CrossSheet.target_sheet ref = t).
  { intros e He.
    assert (He' : e ∈ filter (fun e0 => Analysis.edge_source e0 = Analysis.edge_source e)
                       (Analysis.edges g)) by (by apply list_elem_of_filter).
    rewrite Hfrom in He'. unfold Analysis.edges_of in He'.
    apply list_elem_of_fmap in He' as (t & He' & Ht).
    apply AnalysisFacts.elem_of_targets in Ht as [[]%elem_of_nil|Href].
    exists t. split; [|done]. rewrite He' at 1. by rewrite He'. }
  split; [|split; [|split]].
  - intros s. rewrite Hfrom. unfold Analysis.edges_of. rewrite <-list_fmap_compose.
    rewrite (list_fmap_ext _ id) by done. rewrite list_fmap_id.
    apply AnalysisFacts.NoDup_targets. constructor.
  - intros e He. destruct (Hedge e He) as (t & Heq & ref & Hin & Ht).
    assert (Htgt : Analysis.edge_target e = t) by (rewrite Heq; done).
    assert (Hcnt : Analysis.edge_count e
                   = length (filter (fun r => CrossSheet.target_sheet r = t)
                               (Analysis.refs_of data (Analysis.edge_source e))))
      by (rewrite Heq at 1; done).
    rewrite Htgt. split; [|split; [|done]].
    + destruct (Hsrc _ _ Hin) as [_ Hne]. congruence.
    + rewrite Hcnt.
      assert (Hin' : ref ∈ filter (fun r => CrossSheet.target_sheet r = t)
                            (Analysis.refs_of data (Analysis.edge_source e)))
        by (by apply list_elem_of_filter).
      destruct (filter _ _); [by apply elem_of_nil in Hin'|simpl; lia].
  - intros s t. rewrite Hdeps. split.
    + intros (e & He & <- & <-). destruct (Hedge e He) as (t & Heq & ref & Hin & Ht).
      exists ref. split; [done|]. rewrite Heq. done.
    + intros (ref & Hin & Ht).
      assert (He : Analysis.Edge s t
                     (length (filter (fun r => CrossSheet.target_sheet r = t)
                                (Analysis.refs_of data s)))
                   ∈ filter (fun e => Analysis.edge_source e = s) (Analysis.edges g)).
      { rewrite Hfrom. unfold Analysis.edges_of.
        apply list_elem_of_fmap. exists t. split; [done|].
        apply AnalysisFacts.elem_of_targets. right. eauto. }
      apply list_elem_of_filter in He as [_ He]. eauto.
  - intros s. rewrite Hfrom. apply AnalysisFacts.sum_edges_of.
Qed.

(** ** The levels follow the dependencies *)

Module OrderFacts.

Import CrossSheet OrderSpec LevelFacts.

Lemma issubset_true (a b : list str) :
  issubset a b = true <-> forall x, x ∈ a -> x ∈ b.
Proof.
  unfold issubset. rewrite forallb_forall. split.
  - intros H x Hx. apply list_elem_of_In, H in Hx. by apply bool_decide_eq_true in Hx.
  - intros H x Hx. apply bool_decide_eq_true, H. by apply list_elem_of_In.
Qed.

Lemma issubset_false (a b : list str) :
  issubset a b <> true -> exists x, x ∈ a /\ x ∉ b.
Proof.
  unfold issubset. induction a as [|x a IH]; simpl; [done|].
  destruct (bool_decide (x ∈ b)) eqn:Hx; simpl.
  - intros (y & Hy & Hny)%IH. exists y. split; [by right|done].
  - intros _. exists x. split; [left|]. by apply bool_decide_eq_false in Hx.
Qed.

Lemma earlier_insert levels cur new k d :
  (forall k l, levels !! k = Some l -> k < cur) ->
  earlier levels k d -> earlier (<[cur := new]> levels) k d.
Proof.
  intros Hlt (k' & l' & Hk' & Hl' & Hd). exists k', l'. split; [done|]. split; [|done].
  rewrite lookup_insert_ne; [done|]. intros <-. apply Hlt in Hl'. lia.
Qed.

Lemma earlier_insert_inv levels cur new k d :
  k <= cur -> earlier (<[cur := new]> levels) k d -> earlier levels k d.
Proof.
  intros Hk (k' & l' & Hk' & Hl' & Hd). exists k', l'. split; [done|]. split; [|done].
  rewrite lookup_insert_ne in Hl'; [done|lia].
Qed.

Lemma deps_get_not_key (dependencies : deps_map) (sheet : str) :
  sheet ∉ dependencies.*1 -> deps_get dependencies sheet = [].
Proof.
  unfold deps_get. induction dependencies as [|[k v] deps IH]; [done|]. simpl.
  intros Hn. destruct (decide (k = sheet)) as [->|Hne].
  - exfalso. apply Hn. left.
  - apply IH. intros Hin. apply Hn. by right.
Qed.

Lemma order_loop_sound dependencies all_sheets :
  forall fuel levels processed cur levels',
    (forall k l, levels !! k = Some l -> k < cur) ->
    (forall x, x ∈ processed <-> exists k l, levels !! k = Some l /\ x ∈ l) ->
    (forall k l x, levels !! k = Some l -> x ∈ l -> settled dependencies levels k x) ->
    order_loop fuel dependencies all_sheets levels processed cur = Some levels' ->
    forall k l, levels' !! k = Some l -> level_ok dependencies levels' k l.
Proof.
  induction fuel as [|fuel IH]; intros levels processed cur levels' Hlt Hproc Hset Hrun;
    [done|].
  simpl in Hrun. destruct (length processed <? length all_sheets).
  - destruct (ready_sheets dependencies all_sheets processed) as [|x new] eqn:Hready.
    + injection Hrun as <-. intros k l. rewrite lookup_insert.
      case_decide as Hk; [subst k; intros [= <-]|intros Hl].
      * right. split.
        { intros k' Hk'. rewrite lookup_insert_ne by lia.
          destruct (levels !! k') as [l'|] eqn:E; [|done]. apply Hlt in E. lia. }
        intros sheet Hsheet.
        assert (Hnot : issubset (deps_get dependencies sheet) processed <> true).
        { intros Hsub.
          assert (Hin : sheet ∈ ready_sheets dependencies all_sheets processed)
            by (by apply list_elem_of_filter).
          rewrite Hready in Hin. by apply elem_of_nil in Hin. }
        apply issubset_false in Hnot as (d & Hd & Hnd).
        exists d. split; [done|]. intros He%earlier_insert_inv; [|done].
        apply Hnd, Hproc. destruct He as (k' & l' & _ & ? & ?). eauto.
      * left. intros sheet Hsheet d Hd. apply earlier_insert; [done|].
        by apply (Hset k l sheet).
    + eapply IH; [..|exact Hrun].
      * intros k l. rewrite lookup_insert. case_decide; [intros _; lia|].
        intros Hk. apply Hlt in Hk. lia.
      * intros y. rewrite elem_of_set_update, Hproc. split.
        -- intros [(k & l & Hk & Hy)|Hy].
           ++ exists k, l. split; [|done]. rewrite lookup_insert_ne; [done|].
              intros <-. apply Hlt in Hk. lia.
           ++ exists cur, (x :: new). by rewrite lookup_insert_eq.
        -- intros (k & l & Hk & Hy). rewrite lookup_insert in Hk. case_decide.
           ++ injection Hk as <-. by right.
           ++ left. eauto.
      * intros k l y. rewrite lookup_insert.
        case_decide as Hk; [subst k; intros [= <-]|intros Hl]; intros Hy d Hd.
        -- rewrite <-Hready in Hy. apply list_elem_of_filter in Hy as [Hsub _].
           pose proof (proj1 (issubset_true _ _) Hsub) as Hall.
           apply Hall, Hproc in Hd as (k' & l' & Hk' & Hd).
           exists k', l'. split; [by apply Hlt in Hk'|]. split; [|done].
           rewrite lookup_insert_ne; [done|]. intros <-. apply Hlt in Hk'. lia.
        -- apply earlier_insert; [done|]. by apply (Hset k l y).
  - injection Hrun as <-. intros k l Hl. left. intros sheet Hsheet. by apply (Hset k l).
Qed.

Lemma calculate_processing_order_sound (dependencies : deps_map) levels :
  _calculate_processing_order dependencies = Some levels ->
  forall k l, levels !! k = Some l -> level_ok dependencies levels k l.
Proof.
  unfold _calculate_processing_order.
  set (all_sheets := collect_sheets dependencies).
  destruct (list_difference all_sheets dependencies.*1) as [|x level_0] eqn:Hl0.
  - apply order_loop_sound.
    + intros k l. by rewrite lookup_empty.
    + intros y. split; [by intros ?%elem_of_nil|].
      intros (k & l & Hk & _). by rewrite lookup_empty in Hk.
    + intros k l y. by rewrite lookup_empty.
  - apply order_loop_sound.
    + intros k l [<- _]%lookup_singleton_Some. lia.
    + intros y. rewrite elem_of_set_update, elem_of_nil. split.
      * intros [[]|Hy]. exists 0, (x :: level_0). by rewrite lookup_singleton_eq.
      * intros (k & l & [<- <-]%lookup_singleton_Some & Hy). by right.
    + intros k l y [<- <-]%lookup_singleton_Some Hy d Hd.
      rewrite <-Hl0 in Hy. apply list_elem_of_difference in Hy as [_ Hy].
      rewrite (deps_get_not_key _ _ Hy) in Hd. by apply elem_of_nil in Hd.
Qed.

End OrderFacts.

(** X11. The levels [_calculate_processing_order] returns follow the
    dependencies: the sheets of a level have all their dependencies in
    earlier levels, except in a last level of leftover sheets, each of which
    has a dependency that no earlier level holds (a circular dependency, or
    a dependency on one). *)
Theorem processing_order_respects_dependencies :
  forall dependencies : CrossSheet.deps_map,
    exists levels,
      CrossSheet._calculate_processing_order dependencies = Some levels /\
      forall k l, levels !! k = Some l -> OrderSpec.level_ok dependencies levels k l.
Proof.
  intros dependencies.
  destruct (LevelFacts.calculate_processing_order_total dependencies) as (levels & Hrun & _).
  exists levels. split; [done|].
  by apply OrderFacts.calculate_processing_order_sound.
Qed.

(** ** The extraction *)

Module ExtractFacts.

Import Workbook Extraction ExtractSpec DictFacts.




Lemma get_elem {V} (d : list (str * V)) key v :
  Dict.get d key = Some v -> (key, v) ∈ d.
Proof.
  induction d as [|[k v0] d IH]; simpl; [done|].
  destruct (decide (k = key)) as [->|?].
  - intros [= ->]. left.
  - intros H. right. by apply IH.
Qed.






End ExtractFacts.




(** ** The size of a cascade *)

Module CascadeFacts.

Import Impact.

Lemma length_filter_split {A} (P : A -> Prop) `{!forall x, Decision (P x)} (l : list A) :
  length (filter (fun x => ~ P x) l) + length (filter P l) = length l.
Proof.
  induction l as [|x l IH]; [done|].
  rewrite !filter_cons. destruct (decide (P x)) as [Hp|Hp].
  - rewrite decide_False by tauto. simpl. lia.
  - rewrite decide_True by done. simpl. lia.
Qed.

Lemma NoDup_filter_split {A} (P : A -> Prop) `{!forall x, Decision (P x)} (l : list A) :
  NoDup l -> NoDup (filter (fun x => ~ P x) l ++ filter P l).
Proof.
  intros Hnd. apply NoDup_app. split; [by apply NoDup_filter|]. split; [|by apply NoDup_filter].
  intros x [Hnp _]%list_elem_of_filter [Hp _]%list_elem_of_filter. done.
Qed.

Lemma cascade_of_size (cols : gset str) (c : cascade) :
  cascade_of cols = Some c ->
  impact_level c = size cols /\ 1 <= size cols /\
  NoDup (columns c ++ formulas_afetadas c) /\
  Forall (fun item => ~ has_dot item) (columns c) /\ Forall has_dot (formulas_afetadas c).
Proof.
  unfold cascade_of. destruct (decide (cols <> ∅)) as [Hne|]; [|done].
  intros [= <-]. unfold impact_level. simpl. split; [|split; [|split; [|split]]].
  - rewrite length_filter_split. done.
  - destruct (decide (size cols = 0)) as [H0|]; [|lia].
    by apply size_empty_inv, leibniz_equiv in H0.
  - apply NoDup_filter_split, NoDup_elements.
  - apply Forall_forall. by intros x [? _]%list_elem_of_filter.
  - apply Forall_forall. by intros x [? _]%list_elem_of_filter.
Qed.

Lemma cascade_of_elem (cols : gset str) (c : cascade) :
  cascade_of cols = Some c ->
  forall item, item ∈ columns c ++ formulas_afetadas c <-> item ∈ cols.
Proof.
  unfold cascade_of. destruct (decide (cols <> ∅)) as [Hne|]; [|done].
  intros [= <-] item. simpl.
  rewrite elem_of_app, !list_elem_of_filter, !elem_of_elements.
  destruct (decide (has_dot item)); tauto.
Qed.

End CascadeFacts.

(** X14. The cascade entry [main] builds for an origin column lists the
    formulas that consume the column, each once, divided by the dot in its name,
    so the impact level the report computes for the row is the number of
    distinct formulas that consume the column, and is at least one; a column
    that no formula consumes has no entry. *)
Theorem cascade_level_counts_consumers :
  forall (formulas : list (str * Impact.formula_info)) (col : str),
    match Impact.impacto_cascata (Impact.analisar_cadeia_impacto formulas) !! col with
    | Some c =>
        NoDup (Impact.columns c ++ Impact.formulas_afetadas c) /\
        (forall item, item ∈ Impact.columns c ++ Impact.formulas_afetadas c
                      <-> Impact.consumes formulas col item) /\
        Forall (fun item => ~ Impact.has_dot item) (Impact.columns c) /\
        Forall Impact.has_dot (Impact.formulas_afetadas c) /\
        1 <= Impact.impact_level c /\
        forall consumers : list str,
          NoDup consumers ->
          (forall item, item ∈ consumers <-> Impact.consumes formulas col item) ->
          Impact.impact_level c = length consumers
    | None => forall item, ~ Impact.consumes formulas col item
    end.
Proof.
  intros formulas col.
  pose proof (fun item => ImpactFacts.cadeia_spec formulas col item) as Hspec.
  unfold Impact.impacto_cascata, Impact.impact_set in *. rewrite lookup_omap.
  destruct (Impact.analisar_cadeia_impacto formulas !! col) as [cols|]; simpl in *.
  - destruct (Impact.cascade_of cols) as [c|] eqn:Hc.
    + destruct (CascadeFacts.cascade_of_size cols c Hc) as (Hlevel & Hpos & Hnd & Hcols & Hforms).
      split; [done|]. split.
      { intros item. by rewrite (CascadeFacts.cascade_of_elem cols c Hc), Hspec. }
      split; [done|]. split; [done|]. split; [lia|].
      intros consumers Hndc Hmem. rewrite Hlevel.
      apply Permutation_length, NoDup_Permutation; [apply NoDup_elements|done|].
      intros item. by rewrite elem_of_elements, Hspec, Hmem.
    + unfold Impact.cascade_of in Hc. destruct (decide (cols <> ∅)) as [|He]; [done|].
      apply dec_stable in He. subst cols. intros item Hitem%Hspec. by apply elem_of_empty in Hitem.
  - intros item Hitem%Hspec. by apply elem_of_empty in Hitem.
Qed.

(** ** The messages of the impact analysis *)

Module CausesFacts.

Import Impact Report Causes DictFacts.

Lemma formula_dependencies_assign formulas :
  formula_dependencies formulas = Dict.assign_all [] (dependency_assignments formulas).
Proof.
  unfold formula_dependencies, dependency_assignments, Dict.assign_all.
  generalize (@nil (str * list str)).
  induction formulas as [|entry formulas IH]; intros d; [done|].
  simpl. destruct (get_mapeamento entry.2); simpl; by rewrite IH.
Qed.

Lemma possiveis_causas_not_empty deps : deps <> [] -> causes deps <> [].
Proof. by destruct deps. Qed.

(** The last element of a filtered list, by its index. *)
Lemma last_filter_index {A} (P : A -> Prop) `{!forall x, Decision (P x)} (l : list A) x :
  last (filter P l) = Some x ->
  exists j, l !! j = Some x /\ P x /\ forall j' y, j < j' -> l !! j' = Some y -> ~ P y.
Proof.
  induction l as [|a l IH]; [done|].
  rewrite filter_cons. destruct (last (filter P l)) as [z|] eqn:Hl.
  - assert (Hlast : last (if decide (P a) then a :: filter P l else filter P l) = Some z).
    { destruct (decide (P a)); [|done]. rewrite last_cons, Hl. done. }
    rewrite Hlast. intros [= ->]. destruct (IH eq_refl) as (j & Hj & Hp & Hafter).
    exists (S j). split; [done|]. split; [done|].
    intros [|j'] y Hlt; [lia|]. simpl. apply Hafter. lia.
  - assert (Hnone : forall y, y ∈ l -> ~ P y).
    { intros y Hy Hp. apply last_None in Hl.
      assert (Hin : y ∈ filter P l) by (by apply list_elem_of_filter).
      rewrite Hl in Hin. by apply elem_of_nil in Hin. }
    destruct (decide (P a)) as [Hp|Hp].
    + rewrite last_cons, Hl. intros [= ->]. exists 0. split; [done|]. split; [done|].
      intros [|j'] y Hlt; [lia|]. simpl. intros Hy. apply Hnone.
      by eapply list_elem_of_lookup_2.
    + by rewrite Hl.
Qed.

Lemma last_filter_cons {A} (P : A -> Prop) `{!forall x, Decision (P x)} (a : A) l :
  last (filter P (a :: l))
  = match last (filter P l) with
    | Some x => Some x
    | None => if decide (P a) then Some a else None
    end.
Proof.
  rewrite filter_cons. destruct (decide (P a)); [|by destruct (last _)].
  by rewrite last_cons.
Qed.

Lemma message_some (fd : list (str * list str)) (resultado : object) :
  validation_result resultado -> is_Some (message fd resultado).
Proof.
  intros [H _]. rewrite Forall_forall in H. unfold message.
  destruct (H (list_ascii_of_string "coluna")) as [coluna ->].
  { unfold validator_fields, strs. simpl. right. left. }
  destruct (H (list_ascii_of_string "resultado")) as [res ->].
  { unfold validator_fields, strs. simpl. do 4 right. left. }
  by eexists.
Qed.

(** The dict the loop returns holds, under every key, the message of the
    last result with the key. *)
Lemma analyze_loop_spec (fd : list (str * list str)) (h : store) : forall (results : list ref) (acc : gmap str str),
  Forall (fun r => exists o, h !! r = Some o /\ validation_result o) results ->
  exists impacto,
    analyze_loop fd h results acc = Some impacto /\
    forall key,
      impacto !! key
      = match last (filter (has_key h key) results) with
        | Some r => h !! r ≫= message fd
        | None => acc !! key
        end.
Proof.
  induction results as [|r rest IH]; intros acc Hall.
  { exists acc. done. }
  apply Forall_cons in Hall as [(o & Ho & Hvalid) Hall].
  destruct (message_some fd o Hvalid) as [msg Hmsg].
  destruct (ReportFacts.resultado_key_some o Hvalid) as [k Hk].
  cbn [analyze_loop]. rewrite Ho. simpl. rewrite Hmsg. simpl. rewrite Hk. simpl.
  destruct (IH (<[k := msg]> acc) Hall) as (impacto & Hrun & Hget).
  exists impacto. split; [done|]. intros key. rewrite Hget, last_filter_cons.
  destruct (last (filter (has_key h key) rest)); [done|].
  assert (Hhas : has_key h key r <-> k = key).
  { unfold has_key. rewrite Ho. simpl. rewrite Hk. split; congruence. }
  destruct (decide (has_key h key r)) as [Heq|Hne].
  - apply Hhas in Heq as ->. rewrite lookup_insert_eq, Ho. done.
  - rewrite lookup_insert_ne; [done|]. intros Heq. by apply Hne, Hhas.
Qed.

End CausesFacts.

(** X15. [analyze_formula_dependencies] followed by
    [gerar_relatorio_impacto], as [main] calls them on the validator's
    results: both return, and the i-th enriched result carries as
    ['divergencias_na_formula'] the message computed for the last result
    that has the same key [chave_coluna_linha]; it is the result's own
    message when no later result has its key. *)
Theorem enriched_results_carry_last_message :
  forall (formulas : list (str * Impact.formula_info)) (h : Report.store)
         (validation_results : list Report.ref),
    Forall (fun r => exists resultado,
              h !! r = Some resultado /\ Report.validation_result resultado)
      validation_results ->
    exists impacto h' out,
      Causes.analyze_formula_dependencies h validation_results formulas = Some impacto /\
      Report.gerar_relatorio_impacto impacto h validation_results = Some (h', out) /\
      length out = length validation_results /\
      forall i r r',
        validation_results !! i = Some r -> out !! i = Some r' ->
        exists inp key j r_last last msg o,
          h !! r = Some inp /\ Report.resultado_key inp = Some key /\
          i <= j /\ Causes.last_with_key h validation_results key j /\
          validation_results !! j = Some r_last /\ h !! r_last = Some last /\
          Causes.message (Causes.formula_dependencies formulas) last = Some msg /\
          h' !! r' = Some o /\
          o !! Report.divergencias_na_formula = Some (Report.VStr msg).
Proof.
  intros formulas h results Hall.
  destruct (CausesFacts.analyze_loop_spec (Causes.formula_dependencies formulas) h results ∅ Hall)
    as (impacto & Hrun & Hget).
  destruct (ReportFacts.gerar_loop_spec impacto h results h []) as
    (h' & out & Hgerar & _ & _ & _ & Hpairs); [done..|].
  exists impacto, h', out. split; [done|]. split; [done|].
  split; [symmetry; by eapply Forall2_length|].
  intros i r r' Hr Hr'.
  destruct (Forall2_lookup_lr _ _ _ _ _ _ Hpairs Hr Hr')
    as (inp & o & Hinp & Ho & key & Hkey & _ & Hfield & _).
  assert (Hhas : Causes.has_key h key r).
  { unfold Causes.has_key. rewrite Hinp. done. }
  specialize (Hget key).
  destruct (last (filter (Causes.has_key h key) results)) as [r_last|] eqn:Hlast.
  - apply CausesFacts.last_filter_index in Hlast as (j & Hj & Hjkey & Hafter).
    rewrite Forall_forall in Hall.
    destruct (Hall r_last) as (last & Hl & Hvalid); [by eapply list_elem_of_lookup_2|].
    destruct (CausesFacts.message_some (Causes.formula_dependencies formulas) last Hvalid)
      as [msg Hmsg].
    exists inp, key, j, r_last, last, msg, o.
    split; [done|]. split; [done|]. split.
    { destruct (decide (i <= j)) as [|Hgt]; [done|]. exfalso.
      apply (Hafter i r); [lia|done..]. }
    split; [split; [eauto|done]|]. split; [done|]. split; [done|]. split; [done|].
    split; [done|]. rewrite Hfield, Hget, Hl. simpl. rewrite Hmsg. done.
  - exfalso. apply last_None in Hlast.
    assert (Hin : r ∈ filter (Causes.has_key h key) results).
    { apply list_elem_of_filter. split; [done|]. by eapply list_elem_of_lookup_2. }
    rewrite Hlast in Hin. by apply elem_of_nil in Hin.
Qed.

(** Two results with the key [E1_TOTAL_0], the second one not divergent. *)
Lemma enriched_results_carry_last_message_witness :
  let first := Report.object_of
    [("linha_idx", Report.VInt 0); ("coluna", Report.VStr "TOTAL");
     ("valor_arquivo_1", Report.VFloat "10.0"); ("valor_arquivo_2", Report.VFloat "12.5");
     ("resultado", Report.VBool false); ("tolerancia_aplicada", Report.VStr "Exata");
     ("chave", Report.VStr "E1")] in
  let second := Report.object_of
    [("linha_idx", Report.VInt 0); ("coluna", Report.VStr "TOTAL");
     ("valor_arquivo_1", Report.VInt 7); ("valor_arquivo_2", Report.VInt 7);
     ("resultado", Report.VBool true); ("tolerancia_aplicada", Report.VStr "Exata");
     ("chave", Report.VStr "E1")] in
  let h : Report.store := <[0 := first]> (<[1 := second]> ∅) in
  let formulas := [(list_ascii_of_string "TOTAL", Impact.formula_with [("A", "SALARIO")])] in
  Forall (fun r => exists resultado,
            h !! r = Some resultado /\ Report.validation_result resultado) [0; 1] /\
  exists impacto h' out,
    Causes.analyze_formula_dependencies h [0; 1] formulas = Some impacto /\
    Report.gerar_relatorio_impacto impacto h [0; 1] = Some (h', out) /\
    length out = 2 /\
    forall i r r',
      [0; 1] !! i = Some r -> out !! i = Some r' ->
      exists inp key j r_last last msg o,
        h !! r = Some inp /\ Report.resultado_key inp = Some key /\
        i <= j /\ Causes.last_with_key h [0; 1] key j /\
        [0; 1] !! j = Some r_last /\ h !! r_last = Some last /\
        Causes.message (Causes.formula_dependencies formulas) last = Some msg /\
        h' !! r' = Some o /\
        o !! Report.divergencias_na_formula = Some (Report.VStr msg).
Proof.
  intros first second h formulas.
  assert (Hvalid : forall o : Report.object,
            forallb (fun field => bool_decide (is_Some (o !! field))) Report.validator_fields
            && bool_decide (o !! Report.divergencias_na_formula = None) = true ->
            Report.validation_result o).
  { intros o [Hf Hd]%andb_prop. split; [|by apply bool_decide_eq_true in Hd].
    apply Forall_forall. intros field Hin.
    rewrite forallb_forall in Hf. apply list_elem_of_In, Hf in Hin.
    by apply bool_decide_eq_true in Hin. }
  assert (Hall : Forall (fun r => exists resultado,
                   h !! r = Some resultado /\ Report.validation_result resultado) [0; 1]).
  { apply List.Forall_cons; [|apply List.Forall_cons; [|apply List.Forall_nil]].
    - exists first. split; [apply lookup_insert_eq|]. apply Hvalid. vm_compute. reflexivity.
    - exists second. split.
      + unfold h. rewrite lookup_insert_ne by done. apply lookup_insert_eq.
      + apply Hvalid. vm_compute. reflexivity. }
  split; [exact Hall|].
  exact (enriched_results_carry_last_message formulas h [0; 1] Hall).
Defined.

(** X16. The message of a result is not empty exactly when the result is
    divergent (its ['resultado'] is falsy), its column is the column name,
    the part after the last dot, of a formula whose mapping is a dict, and
    the last such formula refers to at least one column; it then starts
    with the fixed text and names the first three of these columns, followed,
    when there are more than three, by the count of the others. *)
Theorem message_names_causes :
  forall (formulas : list (str * Impact.formula_info)) (resultado : Report.object),
    match Causes.message (Causes.formula_dependencies formulas) resultado with
    | Some msg =>
        (msg <> [] <->
         exists c res deps,
           resultado !! (list_ascii_of_string "coluna") = Some (Report.VStr c) /\
           resultado !! (list_ascii_of_string "resultado") = Some res /\
           Causes.truthy res = false /\
           Dict.last_assigned (Causes.dependency_assignments formulas) c = Some deps /\
           deps <> [] /\
           exists rest,
             msg = Causes.possiveis_causas ++ Causes.join ", " (take 3 deps) ++ rest /\
             (rest = [] <-> length deps <= 3) /\
             (3 < length deps ->
              rest = list_ascii_of_string " e outras " ++
                     list_ascii_of_string (pretty (length deps - 3)) ++
                     list_ascii_of_string " colunas"))
    | None =>
        resultado !! (list_ascii_of_string "coluna") = None \/
        resultado !! (list_ascii_of_string "resultado") = None
    end.
Proof.
  intros formulas resultado. unfold Causes.message.
  destruct (resultado !! list_ascii_of_string "coluna") as [coluna|]; [|by left].
  destruct (resultado !! list_ascii_of_string "resultado") as [res|]; [|by right].
  simpl.
  assert (Hget : forall c, Dict.get (Causes.formula_dependencies formulas) c
                  = Dict.last_assigned (Causes.dependency_assignments formulas) c).
  { intros c. rewrite CausesFacts.formula_dependencies_assign, DictFacts.get_assign_all.
    by destruct (Dict.last_assigned _ _). }
  destruct coluna as [c| | | |];
    try (split; [done|]; by intros (c & res0 & deps & [=] & _)).
  rewrite Hget.
  destruct (Dict.last_assigned (Causes.dependency_assignments formulas) c) as [deps|] eqn:Hdeps.
  - destruct (Causes.truthy res) eqn:Hres.
    + split; [done|]. intros (c' & res0 & deps' & [= <-] & [= <-] & Hf & _). congruence.
    + destruct deps as [|d deps].
      * split; [done|]. intros (c' & res0 & deps' & [= <-] & _ & _ & Hd & Hne & _).
        rewrite Hdeps in Hd. by injection Hd as <-.
      * split; [|done]. intros _. exists c, res, (d :: deps).
        split; [done|]. split; [done|]. split; [done|]. split; [done|]. split; [done|].
        unfold Causes.causes. eexists. split; [reflexivity|].
        destruct (3 <? length (d :: deps)) eqn:Hlen.
        -- apply Nat.ltb_lt in Hlen. split; [split; [done|lia]|done].
        -- apply Nat.ltb_ge in Hlen. split; [done|]. simpl in *. lia.
  - split; [done|]. intros (c' & res0 & deps' & [= <-] & _ & _ & Hd & _).
    rewrite Hdeps in Hd. done.
Qed.

(** ** The discovery *)

Module DiscoveryFacts.

Import Workbook DictFacts.

Section Discover.

Context {analysis : Type}.
Variable analyze : str -> list (str * list (option str)) -> str -> analysis.



End Discover.

End DiscoveryFacts.



(** ** Cell references as coordinates *)

Module CellRefFacts.

Import ReSpec GeneralizeSpec GeneralizeFacts CellRef.

Lemma run_all_app p (x y : str) :
  all p x -> holds_at p (head y) = false ->
  run p (x ++ y) = x /\ after p (x ++ y) = y.
Proof.
  intros Hx Hy. induction Hx as [|c x Hc Hx IH]; simpl.
  - destruct y as [|d y]; [done|]. simpl in *. by rewrite Hy.
  - rewrite Hc. destruct IH as [-> ->]. done.
Qed.

Lemma parse_match (cell_ref : str) :
  rmatch parse_pattern None cell_ref =
  match run Chars.upper cell_ref, after Chars.upper cell_ref with
  | (_ :: _) as col, d :: r =>
      if Chars.digit d then Some ([col; d :: run Chars.digit r], after Chars.digit r) else None
  | _, _ => None
  end.
Proof. apply (generalize_pattern_match None cell_ref). Qed.

Lemma upper_code c : Chars.upper c = true -> 65 <= Chars.code c <= 90.
Proof.
  unfold Chars.upper, Chars.between. rewrite andb_true_iff, !Nat.leb_le. lia.
Qed.

Lemma column_number_snoc (col : str) c :
  column_number (col ++ [c]) = (column_number col * 26 + (Z.of_nat (Chars.code c) - 65 + 1))%Z.
Proof. unfold column_number. by rewrite foldl_app. Qed.

Lemma column_number_pos (col : str) :
  all Chars.upper col -> (0 <= column_number col)%Z /\ (col <> [] -> 1 <= column_number col)%Z.
Proof.
  induction col as [|c col IH] using rev_ind; intros Hall; [done|].
  apply Forall_app in Hall as [Hcol Hc]. inversion Hc as [|? ? Hup _]; subst.
  apply upper_code in Hup. destruct (IH Hcol) as [H0 _].
  rewrite column_number_snoc. split; [lia|]. intros _. lia.
Qed.

Lemma column_number_inj : forall col col' : str,
  all Chars.upper col -> all Chars.upper col' ->
  column_number col = column_number col' -> col = col'.
Proof.
  induction col as [|c col IH] using rev_ind; intros col' Hall Hall' Heq.
  - destruct col' as [|c' col']; [done|].
    destruct (column_number_pos _ Hall') as [_ Hpos]. specialize (Hpos ltac:(done)).
    unfold column_number in Heq at 1. simpl in Heq. lia.
  - destruct col' as [|c' col' _] using rev_ind.
    + destruct (column_number_pos _ Hall) as [_ Hpos].
      specialize (Hpos ltac:(by destruct col)).
      unfold column_number in Heq at 2. simpl in Heq. lia.
    + apply Forall_app in Hall as [Hcol Hc], Hall' as [Hcol' Hc'].
      inversion Hc as [|? ? Hup _]; subst. inversion Hc' as [|? ? Hup' _]; subst.
      apply upper_code in Hup, Hup'.
      rewrite !column_number_snoc in Heq.
      destruct (column_number_pos _ Hcol) as [H0 _].
      destruct (column_number_pos _ Hcol') as [H0' _].
      assert (Hc1 : Chars.code c = Chars.code c') by lia.
      assert (Hc2 : column_number col = column_number col') by lia.
      rewrite (IH col' Hcol Hcol' Hc2). f_equal. f_equal.
      unfold Chars.code in Hc1.
      rewrite <-(ascii_nat_embedding c), <-(ascii_nat_embedding c'). by rewrite Hc1.
Qed.

Lemma parse_reference (col row rest : str) :
  col <> [] -> all Chars.upper col -> row <> [] -> all Chars.digit row ->
  holds_at Chars.digit (head rest) = false ->
  rmatch parse_pattern None (col ++ row ++ rest) = Some ([col; row], rest).
Proof.
  intros Hcol Hup Hrow Hdig Hrest. rewrite parse_match.
  destruct row as [|d row]; [done|]. inversion Hdig as [|? ? Hd Hdig']; subst.
  destruct (run_all_app Chars.upper col ((d :: row) ++ rest) Hup) as [-> ->].
  { simpl. by destruct (Chars.upper d) eqn:Hu; [apply upper_not_digit in Hu; congruence|]. }
  destruct col as [|u col]; [done|]. simpl. rewrite Hd.
  destruct (run_all_app Chars.digit row rest Hdig' Hrest) as [-> ->]. done.
Qed.

(** A row number can be cut where its digits end. *)
Lemma maximal_row (row rest : str) :
  all Chars.digit row ->
  exists row' rest', row ++ rest = row' ++ rest' /\ all Chars.digit row' /\
    (row <> [] -> row' <> []) /\ holds_at Chars.digit (head rest') = false.
Proof.
  intros Hdig. exists (row ++ run Chars.digit rest), (after Chars.digit rest).
  split; [by rewrite <-app_assoc, run_after|]. split.
  - apply Forall_app. split; [done|apply all_run].
  - split; [by destruct row|].
    destruct (after Chars.digit rest) as [|c r] eqn:Ha; [done|]. simpl.
    apply (after_head Chars.digit rest). by rewrite Ha.
Qed.

Lemma parse_cell_ref_of (col row rest : str) :
  col <> [] -> all Chars.upper col -> row <> [] -> all Chars.digit row ->
  holds_at Chars.digit (head rest) = false ->
  _parse_cell_ref (col ++ row ++ rest) = (column_number col, int row).
Proof.
  intros Hcol Hup Hrow Hdig Hrest. unfold _parse_cell_ref.
  rewrite parse_reference by done.
  unfold pieces_at. simpl. by rewrite !app_nil_r.
Qed.

End CellRefFacts.

(** X18. [_parse_cell_ref] reads the reference a string starts with: for
    column letters followed by a row number that ends where the digits
    end, it returns the number of the column, at least 1, and the row
    number. *)
Theorem parse_cell_ref_reads_reference :
  forall col row rest : str,
    col <> [] -> ReSpec.all Chars.upper col ->
    row <> [] -> ReSpec.all Chars.digit row ->
    holds_at Chars.digit (head rest) = false ->
    CellRef._parse_cell_ref (col ++ row ++ rest)
    = (CellRef.column_number col, CellRef.int row) /\
    (1 <= CellRef.column_number col)%Z.
Proof.
  intros col row rest Hcol Hup Hrow Hdig Hrest. split.
  - by apply CellRefFacts.parse_cell_ref_of.
  - by apply CellRefFacts.column_number_pos.
Qed.

(** The cell AB12 of a range. *)
Lemma parse_cell_ref_reads_reference_witness :
  CellRef._parse_cell_ref (list_ascii_of_string "AB" ++ list_ascii_of_string "12" ++
                           list_ascii_of_string ":AC20")
  = (CellRef.column_number "AB", CellRef.int "12") /\
  (1 <= CellRef.column_number "AB")%Z.
Proof.
  apply (parse_cell_ref_reads_reference "AB" "12" ":AC20").
  - done.
  - repeat constructor.
  - done.
  - repeat constructor.
  - reflexivity.
Defined.

(** X19. The column number is a bijective base-26 numeral: different
    column letters give different numbers.  Since the number of a column is
    never 0, [_parse_cell_ref] returns column 0 exactly when the string does
    not start with a reference. *)
Theorem column_numbers_identify_columns :
  (forall col col' : str,
     ReSpec.all Chars.upper col -> ReSpec.all Chars.upper col' ->
     CellRef.column_number col = CellRef.column_number col' -> col = col') /\
  (forall cell_ref : str,
     (CellRef._parse_cell_ref cell_ref).1 = 0%Z <-> ~ CellRef.starts_with_reference cell_ref).
Proof.
  split; [apply CellRefFacts.column_number_inj|].
  intros cell_ref. split.
  - intros Hzero (col & row & rest & -> & Hcol & Hup & Hrow & Hdig).
    destruct (CellRefFacts.maximal_row row rest Hdig)
      as (row' & rest' & Heq & Hdig' & Hne & Hrest).
    rewrite Heq, CellRefFacts.parse_cell_ref_of in Hzero by auto.
    destruct (CellRefFacts.column_number_pos col Hup) as [_ Hpos].
    specialize (Hpos Hcol). simpl in Hzero. lia.
  - intros Hno. unfold CellRef._parse_cell_ref. rewrite CellRefFacts.parse_match.
    pose proof (GeneralizeFacts.run_after Chars.upper cell_ref) as Hsplit.
    pose proof (GeneralizeFacts.all_run Chars.upper cell_ref) as Hall.
    destruct (GeneralizeSpec.run Chars.upper cell_ref) as [|u col] eqn:Hrun; [done|].
    destruct (GeneralizeSpec.after Chars.upper cell_ref) as [|d r] eqn:Hafter; [done|].
    destruct (Chars.digit d) eqn:Hd; [|done]. exfalso. apply Hno.
    exists (u :: col), [d], r. split; [done|]. split; [done|]. split; [done|].
    split; [done|]. by repeat constructor.
Qed.

(** ** The names read from a translated formula *)

Module TranslatedDepsFacts.

Import ReSpec ReFacts TranslatedDeps.

(** What a greedy repetition hands to its continuation. *)
Lemma star_match_inv p (k : cont) (R : str -> list str -> str -> Prop) :
  (forall prev s ps rest, k prev s = Some (ps, rest) -> R s ps rest) ->
  forall s prev ps rest,
    star_match p k prev s = Some (ps, rest) ->
    exists (x : str) ps' (s' : str), ps = x :: ps' /\ all p x /\ s = x ++ s' /\ R s' ps' rest.
Proof.
  intros Hk. induction s as [|c s IH]; intros prev ps rest; simpl.
  - intros (ps' & -> & H)%new_piece_inv. apply Hk in H.
    exists [], ps', []. repeat split; [constructor|done].
  - assert (Hstop : new_piece (k prev (c :: s)) = Some (ps, rest) ->
              exists (x : str) ps' (s' : str),
                ps = x :: ps' /\ all p x /\ c :: s = x ++ s' /\ R s' ps' rest).
    { intros (ps' & -> & H)%new_piece_inv. apply Hk in H.
      exists [], ps', (c :: s). repeat split; [constructor|done]. }
    destruct (p c) eqn:Hc; [|done].
    intros [H|[_ H]]%or_else_inv; [|by apply Hstop].
    apply cons_piece_inv in H as (x & ps' & -> & H).
    apply IH in H as (x' & ps'' & s' & [= -> ->] & Hall & -> & HR).
    exists (c :: x'), ps'', s'. repeat split; [by constructor|done].
Qed.

Lemma upper_word c : Chars.upper c = true -> Chars.word c = true.
Proof. unfold Chars.word. by intros ->. Qed.

Lemma name_match_inv prev (s : str) ps rest :
  rmatch (atoms name_pattern) prev s = Some (ps, rest) ->
  exists c1 (x : str) c2,
    concat ps = c1 :: x ++ [c2] /\ s = (c1 :: x ++ [c2]) ++ rest /\
    Chars.upper c1 = true /\ all upper_ x /\ Chars.upper c2 = true /\
    word_at prev = false /\ word_at (head rest) = false.
Proof.
  cbn [name_pattern atoms rmatch].
  destruct (xorb (word_at prev) (word_at (head s))) eqn:Hb1; [|done].
  intros (ps1 & -> & H)%new_piece_inv.
  destruct s as [|c1 s]; [done|]. destruct (Chars.upper c1) eqn:Hc1; [|done].
  apply cons_piece_inv in H as (x0 & ps2 & -> & H).
  apply new_piece_inv in H as (ps3 & [= -> ->] & H).
  apply (star_match_inv upper_ _
           (fun s ps rest => exists c2, ps = [[c2]; []] /\ s = c2 :: rest /\
              Chars.upper c2 = true /\ word_at (head rest) = false)) in H.
  - destruct H as (x & ps' & s' & -> & Hall & -> & c2 & -> & -> & Hc2 & Hrest).
    exists c1, x, c2. simpl in Hb1. rewrite (upper_word _ Hc1) in Hb1.
    split; [simpl; by rewrite ?app_nil_r|]. split; [simpl; by rewrite <-?app_assoc|].
    repeat split; try done. by destruct (word_at prev).
  - clear. intros prev [|c2 s] ps rest; [done|].
    destruct (Chars.upper c2) eqn:Hc2; [|done]. simpl.
    rewrite (upper_word _ Hc2).
    destruct (word_at (head s)) eqn:Hw; simpl; [done|].
    intros [= <- <-]. by exists c2.
Qed.

(** Every match [finditer] reports is a match of the pattern where it
    stands, the character before it being the one that ends the text
    before. *)
Lemma finditer_scan_context pat (formula : str) :
  forall (s pre : str) skip prev,
    formula = pre ++ s -> prev = last pre ->
    Forall (fun m => exists (pre' s' rest : str),
              formula = pre' ++ s' /\
              rmatch pat (last pre') s' = Some (m_pieces m, rest))
      (finditer_scan pat (length pre) skip prev s).
Proof.
  induction s as [|c s IH]; intros pre skip prev Hf Hprev; simpl; [constructor|].
  assert (Hnext : forall skip',
            Forall (fun m => exists (pre' s' rest : str),
                      formula = pre' ++ s' /\
                      rmatch pat (last pre') s' = Some (m_pieces m, rest))
              (finditer_scan pat (S (length pre)) skip' (Some c) s)).
  { intros skip'. replace (S (length pre)) with (length (pre ++ [c]))
      by (rewrite length_app; simpl; lia).
    apply IH; [by rewrite <-app_assoc|by rewrite last_snoc]. }
  destruct skip as [|n]; [|apply Hnext].
  destruct (rmatch pat prev (c :: s)) as [[ps rest]|] eqn:Hm; [|apply Hnext].
  destruct (length (concat ps)); [apply Hnext|].
  constructor; [|apply Hnext]. simpl. exists pre, (c :: s), rest. by subst prev.
Qed.

Lemma names_found (formula d : str) :
  FStr d ∈ findall name_pattern formula ->
  exists c1 (x : str) c2,
    d = c1 :: x ++ [c2] /\ Chars.upper c1 = true /\ all upper_ x /\ Chars.upper c2 = true /\
    whole_word formula d.
Proof.
  unfold findall. simpl. intros (m & [= ->] & Hm)%list_elem_of_fmap.
  pose proof (finditer_scan_context (atoms name_pattern) formula formula [] 0 None
                eq_refl eq_refl) as Hall.
  rewrite Forall_forall in Hall. apply Hall in Hm as (pre & s & rest & Hf & Hmatch).
  apply name_match_inv in Hmatch as (c1 & x & c2 & Hps & -> & Hc1 & Hx & Hc2 & Hprev & Hrest).
  exists c1, x, c2. unfold text. rewrite Hps. repeat split; try done.
  exists pre, rest. done.
Qed.

End TranslatedDepsFacts.

(** X20. Every dependency [_extract_dependencies_from_translated] returns
    stands in the translated formula as a whole word of at least two
    characters, made of capital letters and underscores, that starts and
    ends with a capital letter, and is none of the eight Excel function
    names; no name is returned twice. *)
Theorem translated_dependencies_are_names :
  forall (formula_traduzida d : str),
    d ∈ TranslatedDeps._extract_dependencies_from_translated formula_traduzida ->
    (exists c1 (x : str) c2,
       d = c1 :: x ++ [c2] /\ Chars.upper c1 = true /\
       ReSpec.all TranslatedDeps.upper_ x /\ Chars.upper c2 = true) /\
    TranslatedDeps.whole_word formula_traduzida d /\
    (d ∉ TranslatedDeps.excel_functions) /\
    NoDup (TranslatedDeps._extract_dependencies_from_translated formula_traduzida).
Proof.
  intros formula d Hd. unfold TranslatedDeps._extract_dependencies_from_translated in *.
  apply elem_of_remove_dups, list_elem_of_filter in Hd as [Hnot Hd].
  apply list_elem_of_omap in Hd as (f & Hf & Hsome).
  destruct f as [gs|m]; [done|]. injection Hsome as ->.
  apply TranslatedDepsFacts.names_found in Hf as (c1 & x & c2 & -> & Hc1 & Hx & Hc2 & Hword).
  split; [by exists c1, x, c2|]. split; [done|]. split; [done|].
  apply NoDup_remove_dups.
Qed.

(** The names of a translated formula. *)
Lemma translated_dependencies_are_names_witness :
  let formula : str := "=IF(SALARIO>0,SALARIO+VALE_REFEICAO,X)" in
  let d : str := "VALE_REFEICAO" in
  d ∈ TranslatedDeps._extract_dependencies_from_translated formula /\
  (exists c1 (x : str) c2,
     d = c1 :: x ++ [c2] /\ Chars.upper c1 = true /\
     ReSpec.all TranslatedDeps.upper_ x /\ Chars.upper c2 = true) /\
  TranslatedDeps.whole_word formula d /\
  (d ∉ TranslatedDeps.excel_functions) /\
  NoDup (TranslatedDeps._extract_dependencies_from_translated formula).
Proof.
  intros formula d.
  assert (Hin : d ∈ TranslatedDeps._extract_dependencies_from_translated formula).
  { assert (Hrun : TranslatedDeps._extract_dependencies_from_translated formula
                   = [list_ascii_of_string "SALARIO"; d]) by (vm_compute; reflexivity).
    rewrite Hrun. right. left. }
  split; [exact Hin|].
  exact (translated_dependencies_are_names formula d Hin).
Defined.

(** ** The sheets a formula refers to *)

Module ExternalRefFacts.

Import ReSpec ReFacts GeneralizeSpec GeneralizeFacts Extraction.

Lemma external_ref_match prev (s : str) ps rest :
  rmatch (atoms external_ref_pattern) prev s = Some (ps, rest) ->
  exists name : str,
    ps = [name; ["!"%char]] /\ name <> [] /\ all Chars.word name /\
    s = name ++ "!"%char :: rest.
Proof.
  intros [Hs H0]%rmatch_sound. simpl in H0.
  apply Forall2_cons_inv_l in H0 as (name & ps1 & [Hne Hall] & H1 & ->).
  apply Forall2_cons_inv_l in H1 as (x & ps2 & (c & -> & Hc) & H2 & ->).
  apply Forall2_nil_inv_l in H2 as ->.
  apply bool_decide_eq_true in Hc. subst c.
  exists name. split; [done|]. split; [done|]. split; [done|].
  rewrite Hs. simpl. by rewrite <-app_assoc.
Qed.

(** A word character before an exclamation mark starts a match. *)
Lemma external_ref_at prev c (post : str) :
  Chars.word c = true ->
  rmatch (atoms external_ref_pattern) prev (c :: "!"%char :: post)
  = Some ([[c]; ["!"%char]], post).
Proof.
  intros Hc. simpl. rewrite Hc.
  destruct post as [|d post]; simpl; by destruct (Chars.word "!").
Qed.

(** A scan over a text in which the pattern matches somewhere finds a
    match. *)
Lemma finditer_scan_finds pat : forall (pre s' : str) pos prev ps rest n,
  rmatch pat (last_of prev pre) s' = Some (ps, rest) ->
  length (concat ps) = S n ->
  finditer_scan pat pos 0 prev (pre ++ s') <> [].
Proof.
  induction pre as [|c pre IH]; intros s' pos prev ps rest n Hm Hn.
  - simpl in *. destruct s' as [|c s'].
    + apply rmatch_sound in Hm as [Hs _]. symmetry in Hs.
      apply app_eq_nil in Hs as [Hs _]. by rewrite Hs in Hn.
    + simpl. unfold last_of in Hm. simpl in Hm. rewrite Hm, Hn. done.
  - rewrite last_of_cons in Hm. simpl.
    destruct (rmatch pat prev (c :: pre ++ s')) as [[ps0 rest0]|].
    + destruct (length (concat ps0)); [by eapply IH|done].
    + by eapply IH.
Qed.

Lemma findall_names (formula name : str) :
  FStr name ∈ findall external_ref_pattern formula ->
  name <> [] /\ all Chars.word name /\
  exists pre post : str, formula = pre ++ name ++ "!"%char :: post.
Proof.
  unfold findall. simpl. intros (m & [= ->] & Hm)%list_elem_of_fmap.
  pose proof (TranslatedDepsFacts.finditer_scan_context (atoms external_ref_pattern)
                formula formula [] 0 None eq_refl eq_refl) as Hall.
  rewrite Forall_forall in Hall. apply Hall in Hm as (pre & s & rest & Hf & Hmatch).
  apply external_ref_match in Hmatch as (name & Hps & Hne & Hw & ->).
  unfold group_at, pieces_at. rewrite Hps. simpl. rewrite app_nil_r.
  split; [done|]. split; [done|]. by exists pre, rest.
Qed.

End ExternalRefFacts.

(** X21. [_extract_external_references] returns, each once, names made of
    word characters that stand in the formula directly before an
    exclamation mark; it returns none exactly when no exclamation mark of
    the formula follows a word character, as when every sheet name is
    quoted. *)
Theorem external_references_precede_bang :
  forall formula : str,
    let refs := Extraction._extract_external_references formula in
    NoDup refs /\
    Forall (fun name : str =>
              name <> [] /\ ReSpec.all Chars.word name /\
              exists pre post : str, formula = pre ++ name ++ "!"%char :: post) refs /\
    (refs = [] <->
     ~ exists (pre : str) c (post : str),
         formula = pre ++ c :: "!"%char :: post /\ Chars.word c = true).
Proof.
  intros formula refs. unfold refs, Extraction._extract_external_references.
  split; [apply NoDup_remove_dups|]. split.
  - apply Forall_forall. intros name Hname.
    apply elem_of_remove_dups, list_elem_of_omap in Hname as (f & Hf & Hsome).
    destruct f as [gs|m]; [done|]. injection Hsome as ->.
    by apply ExternalRefFacts.findall_names.
  - split.
    + intros Hnil (pre & c & post & -> & Hc).
      pose proof (ExternalRefFacts.finditer_scan_finds
                    (atoms Extraction.external_ref_pattern) pre (c :: "!"%char :: post)
                    0 None _ _ 1
                    (ExternalRefFacts.external_ref_at _ c post Hc) eq_refl) as Hfound.
      fold (finditer (atoms Extraction.external_ref_pattern) (pre ++ c :: "!"%char :: post))
        in Hfound.
      destruct (finditer _ _) as [|m ms] eqn:Hms; [done|].
      assert (Hin : group_at 0 1 m ∈ remove_dups
                (omap (fun f => match f with FStr m0 => Some m0 | FTuple _ => None end)
                   (findall Extraction.external_ref_pattern
                      (pre ++ c :: "!"%char :: post)))).
      { apply elem_of_remove_dups, list_elem_of_omap. exists (FStr (group_at 0 1 m)).
        split; [|done]. unfold findall. rewrite Hms. simpl. left. }
      rewrite Hnil in Hin. by apply elem_of_nil in Hin.
    + intros Hno.
      destruct (remove_dups _) as [|name rest] eqn:Hrefs; [done|]. exfalso.
      assert (Hin : name ∈ name :: rest) by left.
      rewrite <-Hrefs in Hin.
      apply elem_of_remove_dups, list_elem_of_omap in Hin as (f & Hf & Hsome).
      destruct f as [gs|m]; [done|]. injection Hsome as ->.
      apply ExternalRefFacts.findall_names in Hf as (Hne & Hw & pre & post & ->).
      apply Hno.
      destruct (exists_last Hne) as (name' & c & ->).
      apply Forall_app in Hw as [_ Hc]. inversion Hc as [|? ? Hc' _]; subst.
      exists (pre ++ name'), c, post. split; [|done].
      by rewrite <-!app_assoc.
Qed.
